(** * mapbox::base weak pointers (mapbox/weak.hpp)

    A shallow embedding of [WeakPtrSharedData], [WeakPtrGuard],
    [WeakPtrBase]/[WeakPtr] and [WeakPtrFactory], and the properties of
    the weak-pointer protocol proved over it.

    Modelling choices.
    - The reference-counted [WeakPtrSharedData] objects live in a store
      of control blocks indexed by address.  A [std::shared_ptr] is an
      optional address that owns one unit of [use_count]; a
      [std::weak_ptr] is an optional address that owns nothing.  A block
      whose [use_count] is 0 is kept in the store (the control block
      outlives the object while weak pointers exist), its payload is
      destroyed and can no longer be reached.
    - Code runs in a state-and-fault monad.  A fault is a failed
      [assert] (checked build), a call that cannot return because the
      calling thread waits on the mutex, or undefined behaviour.
    - Every member function is one transition of the store: calls of
      different threads are interleaved at the granularity of calls.
      The last part cuts [invalidate()], [lock()] and the Guard
      destructor at every access to the shared state and interleaves
      the pieces. *)

From stdpp Require Import base option gmap functions.
From Stdlib Require Import NArith.

(** ** Faults and the state-and-fault monad *)

Inductive fault : Type :=
  | AssertionFailed      (* assert(e) with e false *)
  | WouldBlock           (* the caller waits on the mutex *)
  | UndefinedBehaviour.  (* null or dangling dereference, unlock of a mutex not held *)

Inductive result (A : Type) : Type :=
  | Ok (a : A)
  | Fault (e : fault).
Arguments Ok {A} a.
Arguments Fault {A} e.

Definition M (S A : Type) : Type := S -> result (A * S).

Definition ret {S A} (a : A) : M S A := fun s => Ok (a, s).

Definition bind {S A B} (m : M S A) (k : A -> M S B) : M S B :=
  fun s => match m s with
           | Ok (a, s') => k a s'
           | Fault e => Fault e
           end.

Definition raise {S A} (e : fault) : M S A := fun _ => Fault e.

(** [assert(b)] of <cassert>. *)
Definition assert {S} (b : bool) : M S unit :=
  if b then ret tt else raise AssertionFailed.

Global Instance M_ret {S} : MRet (M S) := @ret S.
Global Instance M_bind {S} : MBind (M S) := fun A B k m => bind m k.

(** Running a computation of a component inside a pair of states. *)
Definition on_fst {S T A} (m : M S A) : M (S * T) A :=
  fun st => match m (fst st) with
            | Ok (a, s') => Ok (a, (s', snd st))
            | Fault e => Fault e
            end.

(** ** std::shared_timed_mutex *)

Module shared_timed_mutex.

Record t : Type := mk { readers : nat; writer : bool }.

Definition init : t := mk 0 false.

Definition lock_shared (m : t) : result t :=
  if writer m then Fault WouldBlock
  else Ok (mk (S (readers m)) (writer m)).

Definition unlock_shared (m : t) : result t :=
  match readers m with
  | O => Fault UndefinedBehaviour
  | S n => Ok (mk n (writer m))
  end.

Definition lock (m : t) : result t :=
  if writer m then Fault WouldBlock
  else match readers m with
       | O => Ok (mk (readers m) true)
       | S _ => Fault WouldBlock
       end.

Definition unlock (m : t) : result t :=
  if writer m then Ok (mk (readers m) false)
  else Fault UndefinedBehaviour.

End shared_timed_mutex.

(** ** internal::WeakPtrSharedData *)

Module WeakPtrSharedData.

Record t : Type := mk { mutex_ : shared_timed_mutex.t; valid_ : bool }.

(** [WeakPtrSharedData() = default], with [valid_{true}]. *)
Definition init : t := mk shared_timed_mutex.init true.

Definition on_mutex (f : shared_timed_mutex.t -> result shared_timed_mutex.t) : M t unit :=
  fun d => match f (mutex_ d) with
           | Ok m => Ok (tt, mk m (valid_ d))
           | Fault e => Fault e
           end.

Definition store_valid (b : bool) : M t unit :=
  fun d => Ok (tt, mk (mutex_ d) b).

Definition sharedLock : M t unit := on_mutex shared_timed_mutex.lock_shared.

Definition sharedUnlock : M t unit := on_mutex shared_timed_mutex.unlock_shared.

(** [std::lock_guard lock(mutex_); valid_ = false;] and the release of
    the lock_guard at the end of the scope. *)
Definition invalidate : M t unit :=
  on_mutex shared_timed_mutex.lock;;
  store_valid false;;
  on_mutex shared_timed_mutex.unlock.

Definition valid : M t bool := fun d => Ok (valid_ d, d).

End WeakPtrSharedData.

(** ** Control blocks, std::shared_ptr and std::weak_ptr *)

Definition loc : Type := positive.

Record control_block : Type := Block {
  use_count : nat;                       (* number of owning shared_ptr *)
  payload   : WeakPtrSharedData.t        (* the managed object *)
}.

Abbreviation store := (gmap loc control_block).

(** [StrongRef = std::shared_ptr<WeakPtrSharedData>], [None] is nullptr. *)
Definition StrongRef : Type := option loc.
(** [WeakRef = std::weak_ptr<WeakPtrSharedData>], [None] is empty. *)
Definition WeakRef : Type := option loc.

(** [std::make_shared<WeakPtrSharedData>()]. *)
Definition make_shared : M store StrongRef := fun h =>
  let l := fresh (dom h) in
  Ok (Some l, <[l := Block 1 WeakPtrSharedData.init]> h).

(** The managed object a weak pointer can still be upgraded to. *)
Definition upgradable (h : store) (w : WeakRef) : option (loc * control_block) :=
  match w with
  | Some l =>
      match h !! l with
      | Some b => match use_count b with
                  | O => None
                  | S _ => Some (l, b)
                  end
      | None => None
      end
  | None => None
  end.

(** [std::weak_ptr::lock()]. *)
Definition weak_lock (w : WeakRef) : M store StrongRef := fun h =>
  match upgradable h w with
  | Some (l, b) => Ok (Some l, <[l := Block (S (use_count b)) (payload b)]> h)
  | None => Ok (None, h)
  end.

(** [~shared_ptr()]: gives up one unit of ownership. *)
Definition release (s : StrongRef) : M store unit := fun h =>
  match s with
  | None => Ok (tt, h)
  | Some l =>
      match h !! l with
      | Some b => match use_count b with
                  | O => Fault UndefinedBehaviour
                  | S n => Ok (tt, <[l := Block n (payload b)]> h)
                  end
      | None => Fault UndefinedBehaviour
      end
  end.

(** [strong->f()]: a member function called through a shared_ptr. *)
Definition call {A} (s : StrongRef) (f : M WeakPtrSharedData.t A) : M store A := fun h =>
  match s with
  | None => Fault UndefinedBehaviour
  | Some l =>
      match h !! l with
      | Some b =>
          match use_count b with
          | O => Fault UndefinedBehaviour
          | S _ =>
              match f (payload b) with
              | Ok (a, d) => Ok (a, <[l := Block (use_count b) d]> h)
              | Fault e => Fault e
              end
          end
      | None => Fault UndefinedBehaviour
      end
  end.

(** ** Object pointers

    An [Object*] is an address, 0 is the null pointer.  The implicit
    derived-to-base conversion [static_cast<Object*>(p)] keeps a null
    pointer null and otherwise yields the address of the base subobject,
    [delta] bytes into the derived object. *)

Definition pointer : Type := N.
Definition nullptr : pointer := 0%N.
Definition is_null (p : pointer) : bool := (p =? nullptr)%N.

Definition static_cast (delta : N) (p : pointer) : pointer :=
  if is_null p then nullptr else (p + delta)%N.

(** ** WeakPtrGuard *)

Module WeakPtrGuard.

Record t : Type := mk { strong_ : StrongRef }.

(** [explicit WeakPtrGuard(internal::StrongRef strong)], with its
    [assert(!strong_ || strong_->valid())]. *)
Definition ctor (strong : StrongRef) : M store t :=
  let this := mk strong in
  ok ← match strong_ this with
       | None => mret true
       | Some _ => call (strong_ this) WeakPtrSharedData.valid
       end;
  assert ok;;
  mret this.

(** [WeakPtrGuard(WeakPtrGuard&&) = default]: the new guard and what
    is left of the source. *)
Definition ctor_move (other : t) : t * t := (mk (strong_ other), mk None).

(** [~WeakPtrGuard()], followed by the destruction of [strong_]. *)
Definition dtor (this : t) : M store unit :=
  match strong_ this with
  | Some _ => call (strong_ this) WeakPtrSharedData.sharedUnlock
  | None => mret tt
  end;;
  release (strong_ this).

Definition empty (this : t) : bool :=
  match strong_ this with None => true | Some _ => false end.

End WeakPtrGuard.

(** ** internal::WeakPtrBase<Object> *)

Module WeakPtrBase.

Record t : Type := mk { weak_ : WeakRef; ptr_ : pointer }.

Definition lock (this : t) : M store WeakPtrGuard.t :=
  strong ← weak_lock (weak_ this);
  match strong with
  | Some _ =>
      call strong WeakPtrSharedData.sharedLock;;
      v ← call strong WeakPtrSharedData.valid;
      if v : bool then
        (* strong is moved into the guard *)
        WeakPtrGuard.ctor strong
      else
        call strong WeakPtrSharedData.sharedUnlock;;
        release strong;;
        WeakPtrGuard.ctor None
  | None =>
      release strong;;
      WeakPtrGuard.ctor None
  end.

Definition expired (this : t) : M store bool :=
  strong ← weak_lock (weak_ this);
  match strong with
  | Some _ =>
      v ← call strong WeakPtrSharedData.valid;
      release strong;;
      mret (negb v)
  | None =>
      release strong;;
      mret true
  end.

Definition operator_bool (this : t) : M store bool :=
  e ← expired this;
  mret (negb e).

Definition object (this : t) : M store pointer :=
  strong ← weak_lock (weak_ this);
  match strong with
  | Some _ =>
      v ← call strong WeakPtrSharedData.valid;
      if v : bool then
        release strong;;
        mret (ptr_ this)
      else
        release strong;;
        mret nullptr
  | None =>
      release strong;;
      mret nullptr
  end.

(** [WeakPtrBase() = default], with [ptr_{}]. *)
Definition ctor_default : t := mk None nullptr.

(** [WeakPtrBase(WeakPtrBase&&) = default]: the new object and what is
    left of [other] (a moved-from [std::weak_ptr] is empty). *)
Definition ctor_move (other : t) : t * t :=
  (mk (weak_ other) (ptr_ other), mk None (ptr_ other)).

(** [WeakPtrBase(const WeakPtrBase&) = default]. *)
Definition ctor_copy (other : t) : t := mk (weak_ other) (ptr_ other).

(** [template <typename U> WeakPtrBase(WeakPtrBase<U>&& other)]:
    [weak_(std::move(other.weak_)), ptr_(static_cast<Object*>(other.ptr_))]. *)
Definition ctor_convert (delta : N) (other : t) : t * t :=
  (mk (weak_ other) (static_cast delta (ptr_ other)), mk None (ptr_ other)).

(** [explicit WeakPtrBase(WeakRef weak, Object* ptr)], with its
    [assert(ptr_)]. *)
Definition ctor (weak : WeakRef) (ptr : pointer) : M store t :=
  let this := mk weak ptr in
  assert (negb (is_null (ptr_ this)));;
  mret this.

(** [operator=(WeakPtrBase&&) = default]: the new value of [*this]
    and what is left of [other]. *)
Definition assign_move (this other : t) : t * t :=
  (mk (weak_ other) (ptr_ other), mk None (ptr_ other)).

(** [operator=(const WeakPtrBase&) = default]. *)
Definition assign_copy (this other : t) : t := mk (weak_ other) (ptr_ other).

End WeakPtrBase.

(** ** WeakPtr<Object>

    [WeakPtr] derives from [WeakPtrBase] and adds no data member. *)

Module WeakPtr.

Definition t : Type := WeakPtrBase.t.

Definition ctor_default : t := WeakPtrBase.ctor_default.

Definition ctor_convert (delta : N) (other : t) : t * t :=
  WeakPtrBase.ctor_convert delta other.

Definition ctor_move (other : t) : t * t := WeakPtrBase.ctor_move other.

Definition ctor_copy (other : t) : t := WeakPtrBase.ctor_copy other.

Definition assign_move (this other : t) : t * t :=
  WeakPtrBase.assign_move this other.

Definition assign_copy (this other : t) : t :=
  WeakPtrBase.assign_copy this other.

(** [Object* operator->() const]. *)
Definition operator_arrow (this : t) : M store pointer :=
  ptr ← WeakPtrBase.object this;
  assert (negb (is_null ptr));;
  mret ptr.

(** [explicit WeakPtr(internal::WeakRef weak, Object* object)] (private). *)
Definition ctor (weak : WeakRef) (object : pointer) : M store t :=
  WeakPtrBase.ctor weak object.

End WeakPtr.

(** ** WeakPtrFactory<Object> *)

Module WeakPtrFactory.

Record t : Type := mk { strong_ : StrongRef; obj_ : pointer }.

(** [explicit WeakPtrFactory(Object* obj)]. *)
Definition ctor (obj : pointer) : M store t :=
  strong ← make_shared;
  mret (mk strong obj).

(** [~WeakPtrFactory() { strong_->invalidate(); }], followed by the
    destruction of [strong_]. *)
Definition dtor (this : t) : M store unit :=
  call (strong_ this) WeakPtrSharedData.invalidate;;
  release (strong_ this).

(** [WeakPtr<Object>{strong_, obj_}]: the shared_ptr converts to a
    weak_ptr on the same control block. *)
Definition makeWeakPtr (this : t) : M store WeakPtr.t :=
  WeakPtr.ctor (strong_ this) (obj_ this).

(** [makeWeakMethod(method)].  [U] is the memory of the host program,
    [P] the parameter pack; a member function pointer applied to an
    object is a computation over the host memory and the store. *)
Definition makeWeakMethod {U P R : Type}
    (this : t) (method : pointer -> P -> M (store * U) R)
    : M store (P -> M (store * U) unit) :=
  weakPtr ← makeWeakPtr this;
  mret (fun params =>
    guard ← on_fst (WeakPtrBase.lock weakPtr);
    obj ← on_fst (WeakPtrBase.object weakPtr);
    (if is_null obj then mret tt
     else method obj params;; mret tt);;
    on_fst (WeakPtrGuard.dtor guard)).

End WeakPtrFactory.

(** ** What a handle observes

    [live h w]: the link [w] can be upgraded in [h] and the liveness
    flag of the Validity State it reaches is set. *)

Definition live (h : store) (w : WeakRef) : bool :=
  match upgradable h w with
  | Some (_, b) => WeakPtrSharedData.valid_ (payload b)
  | None => false
  end.

(** The reader/writer lock of the Validity State is held exclusively. *)
Definition write_locked (h : store) (w : WeakRef) : bool :=
  match upgradable h w with
  | Some (_, b) => shared_timed_mutex.writer (WeakPtrSharedData.mutex_ (payload b))
  | None => false
  end.

(** The closed form of [lock()]. *)
Definition lock_closed (this : WeakPtrBase.t) (h : store) : result (WeakPtrGuard.t * store) :=
  match upgradable h (WeakPtrBase.weak_ this) with
  | None => Ok (WeakPtrGuard.mk None, h)
  | Some (l, b) =>
      let m := WeakPtrSharedData.mutex_ (payload b) in
      if shared_timed_mutex.writer m then Fault WouldBlock
      else if WeakPtrSharedData.valid_ (payload b) then
        let held := shared_timed_mutex.mk (S (shared_timed_mutex.readers m)) false in
        Ok (WeakPtrGuard.mk (Some l),
            <[l := Block (S (use_count b)) (WeakPtrSharedData.mk held true)]> h)
      else Ok (WeakPtrGuard.mk None, h)
  end.

(** ** The operations of the library as transitions of the store *)

Inductive step (h h' : store) : Prop :=
  (* the public interface *)
  | step_factory_ctor obj f :
      WeakPtrFactory.ctor obj h = Ok (f, h') -> step h h'
  | step_factory_dtor f :
      WeakPtrFactory.dtor f h = Ok (tt, h') -> step h h'
  | step_makeWeakPtr f w :
      WeakPtrFactory.makeWeakPtr f h = Ok (w, h') -> step h h'
  | step_lock w g :
      WeakPtrBase.lock w h = Ok (g, h') -> step h h'
  | step_expired w e :
      WeakPtrBase.expired w h = Ok (e, h') -> step h h'
  | step_operator_bool w e :
      WeakPtrBase.operator_bool w h = Ok (e, h') -> step h h'
  | step_object w p :
      WeakPtrBase.object w h = Ok (p, h') -> step h h'
  | step_operator_arrow w p :
      WeakPtr.operator_arrow w h = Ok (p, h') -> step h h'
  | step_guard_dtor g :
      WeakPtrGuard.dtor g h = Ok (tt, h') -> step h h'
  (* the members of WeakPtrSharedData and the smart pointers under them *)
  | step_sharedLock s :
      call s WeakPtrSharedData.sharedLock h = Ok (tt, h') -> step h h'
  | step_sharedUnlock s :
      call s WeakPtrSharedData.sharedUnlock h = Ok (tt, h') -> step h h'
  | step_invalidate s :
      call s WeakPtrSharedData.invalidate h = Ok (tt, h') -> step h h'
  | step_valid s v :
      call s WeakPtrSharedData.valid h = Ok (v, h') -> step h h'
  | step_make_shared s :
      make_shared h = Ok (s, h') -> step h h'
  | step_weak_lock w s :
      weak_lock w h = Ok (s, h') -> step h h'
  | step_release s :
      release s h = Ok (tt, h') -> step h h'.

(** [reachable h h']: [h'] is the store after any number of operations
    of the library, with any arguments, run from [h]. *)
Definition reachable : store -> store -> Prop := rtc step.

(** What no operation undoes, block by block: a destroyed Validity State
    stays destroyed, a cleared liveness flag stays cleared, and a call
    leaves the exclusive side of the lock as it found it. *)
Definition block_evolves (b b' : control_block) : Prop :=
  (use_count b = 0 -> use_count b' = 0) /\
  (WeakPtrSharedData.valid_ (payload b) = false ->
   WeakPtrSharedData.valid_ (payload b') = false) /\
  shared_timed_mutex.writer (WeakPtrSharedData.mutex_ (payload b')) =
  shared_timed_mutex.writer (WeakPtrSharedData.mutex_ (payload b)).

Definition evolves (h h' : store) : Prop :=
  forall l b, h !! l = Some b -> exists b', h' !! l = Some b' /\ block_evolves b b'.

Definition preserving {A} (m : M store A) : Prop :=
  forall h a h', m h = Ok (a, h') -> evolves h h'.

(** ** The locking protocol, step by step

    The member functions that touch the mutex, cut at every access to
    the shared state and interleaved freely.  An activity is one call
    of [invalidate()] or of [lock()], together with the life of the
    Guard that [lock()] returns; a thread that runs several of them
    nested counts as several activities.  The configuration records who
    holds the lock in shared mode, who holds it exclusively, the
    liveness flag, and where every activity stands. *)

Definition activity : Type := nat.

Inductive pc : Type :=
  | Idle
  (* WeakPtrSharedData::invalidate *)
  | Inv_locked       (* the lock_guard holds mutex_; before valid_ = false *)
  | Inv_stored       (* valid_ = false done; before the lock_guard lets go *)
  (* WeakPtrBase::lock *)
  | Lock_upgraded    (* weak_.lock() gave a StrongRef; before sharedLock() *)
  | Lock_shared      (* sharedLock() returned; before strong->valid() *)
  | Lock_valid       (* valid() was true; before the assert of the Guard constructor *)
  | Lock_invalid     (* valid() was false; before sharedUnlock() *)
  | Lock_unlocked    (* sharedUnlock() done; before strong is destroyed *)
  (* WeakPtrGuard *)
  | Guard_held       (* lock() returned a non-empty Guard, which is alive *)
  | Guard_unlocked   (* ~WeakPtrGuard: sharedUnlock() done; before strong_ is destroyed *)
  | Failed.          (* the assert of the Guard constructor failed *)

Record config : Type := Config {
  holders : gset activity;       (* shared owners of mutex_ *)
  exclusive : option activity;   (* exclusive owner of mutex_ *)
  flag : bool;                   (* valid_ *)
  at_ : activity -> pc
}.

Definition config_init : config := Config ∅ None true (fun _ => Idle).

(** Program points at which the activity holds the lock in shared
    mode, holds it exclusively, and relies on the flag being true. *)
Definition reading (p : pc) : bool :=
  match p with
  | Lock_shared | Lock_valid | Lock_invalid | Guard_held => true
  | _ => false
  end.

Definition guarded (p : pc) : bool :=
  match p with
  | Lock_valid | Guard_held => true
  | _ => false
  end.

Definition writing (p : pc) : bool :=
  match p with
  | Inv_locked | Inv_stored => true
  | _ => false
  end.

(** One step of activity [t]. *)
Inductive pstep (t : activity) : config -> config -> Prop :=
  | p_inv_lock v a :
      a t = Idle ->
      pstep t (Config ∅ None v a) (Config ∅ (Some t) v (<[t := Inv_locked]> a))
  | p_inv_store hs w v a :
      a t = Inv_locked ->
      pstep t (Config hs w v a) (Config hs w false (<[t := Inv_stored]> a))
  | p_inv_unlock hs w v a :
      a t = Inv_stored ->
      pstep t (Config hs w v a) (Config hs None v (<[t := Idle]> a))
  | p_lock_upgrade hs w v a :
      a t = Idle ->
      pstep t (Config hs w v a) (Config hs w v (<[t := Lock_upgraded]> a))
  | p_lock_shared hs v a :
      a t = Lock_upgraded ->
      pstep t (Config hs None v a) (Config ({[t]} ∪ hs) None v (<[t := Lock_shared]> a))
  | p_lock_valid hs w a :
      a t = Lock_shared ->
      pstep t (Config hs w true a) (Config hs w true (<[t := Lock_valid]> a))
  | p_lock_invalid hs w a :
      a t = Lock_shared ->
      pstep t (Config hs w false a) (Config hs w false (<[t := Lock_invalid]> a))
  | p_lock_assert hs w v a :
      a t = Lock_valid ->
      pstep t (Config hs w v a)
        (Config hs w v (<[t := if v then Guard_held else Failed]> a))
  | p_lock_unlock hs w v a :
      a t = Lock_invalid ->
      pstep t (Config hs w v a) (Config (hs ∖ {[t]}) w v (<[t := Lock_unlocked]> a))
  | p_lock_release hs w v a :
      a t = Lock_unlocked ->
      pstep t (Config hs w v a) (Config hs w v (<[t := Idle]> a))
  | p_guard_unlock hs w v a :
      a t = Guard_held ->
      pstep t (Config hs w v a) (Config (hs ∖ {[t]}) w v (<[t := Guard_unlocked]> a))
  | p_guard_release hs w v a :
      a t = Guard_unlocked ->
      pstep t (Config hs w v a) (Config hs w v (<[t := Idle]> a)).

Definition interleaving : config -> config -> Prop :=
  rtc (fun c c' => exists t, pstep t c c').

Record protocol_inv (c : config) : Prop := {
  inv_holders : forall t, t ∈ holders c <-> reading (at_ c t) = true;
  inv_exclusive : forall t, exclusive c = Some t <-> writing (at_ c t) = true;
  inv_excludes : forall t, exclusive c = Some t -> holders c = ∅;
  inv_valid : forall t, guarded (at_ c t) = true -> flag c = true;
  inv_assert : forall t, at_ c t <> Failed
}.

(** ** Notions the properties are stated with *)

(** The Validity State a link still reaches: [None] when the link is
    empty or the state no longer exists. *)
Definition validity_state (h : store) (w : WeakRef) : option WeakPtrSharedData.t :=
  match upgradable h w with
  | Some (_, b) => Some (payload b)
  | None => None
  end.

(** [lock()] as its description reads: an empty Guard when the Validity
    State no longer exists; otherwise the read lock is acquired, and the
    Guard carries the hold (the strong reference and the read lock) when
    the liveness flag is set; when it is not, the read lock is released
    at once and the Guard is empty. *)
Definition lock_spec (this : WeakPtrBase.t) (h : store) : result (WeakPtrGuard.t * store) :=
  match upgradable h (WeakPtrBase.weak_ this) with
  | None => Ok (WeakPtrGuard.mk None, h)
  | Some (l, b) =>
      match WeakPtrSharedData.sharedLock (payload b) with
      | Fault e => Fault e
      | Ok (_, d) =>
          if WeakPtrSharedData.valid_ d then
            Ok (WeakPtrGuard.mk (Some l), <[l := Block (S (use_count b)) d]> h)
          else
            match WeakPtrSharedData.sharedUnlock d with
            | Fault e => Fault e
            | Ok (_, d') => Ok (WeakPtrGuard.mk None, <[l := Block (use_count b) d']> h)
            end
      end
  end.

(** What [lock()] leaves when it returns guard [g] in store [h'] from
    store [h]: nothing changed for an empty guard; for a guard on [l],
    the Validity State at [l] was valid in [h], is valid in [h'], has
    one more reader and one more owner than before, an invalidation
    cannot complete, and the constructor's assertion, checked again in
    [h'], holds. *)
Definition guard_acquired (this : WeakPtrBase.t) (h : store) (g : WeakPtrGuard.t) (h' : store) : Prop :=
  match WeakPtrGuard.strong_ g with
  | None => h' = h
  | Some l =>
      exists b b',
        WeakPtrBase.weak_ this = Some l /\
        h !! l = Some b /\ h' !! l = Some b' /\
        WeakPtrSharedData.valid_ (payload b) = true /\
        WeakPtrSharedData.valid_ (payload b') = true /\
        shared_timed_mutex.readers (WeakPtrSharedData.mutex_ (payload b')) =
          S (shared_timed_mutex.readers (WeakPtrSharedData.mutex_ (payload b))) /\
        use_count b' = S (use_count b) /\
        call (Some l) WeakPtrSharedData.invalidate h' = Fault WouldBlock /\
        WeakPtrGuard.ctor (Some l) h' = Ok (g, h')
  end.

(** The handles derived from a factory: those it makes, and their
    copies, moves and conversions, together with what a move leaves
    behind. *)
Inductive derived (f : WeakPtrFactory.t) : WeakPtr.t -> Prop :=
  | derived_make h w h' :
      WeakPtrFactory.makeWeakPtr f h = Ok (w, h') -> derived f w
  | derived_copy w :
      derived f w -> derived f (WeakPtr.ctor_copy w)
  | derived_move w :
      derived f w -> derived f (fst (WeakPtr.ctor_move w))
  | derived_convert delta w :
      derived f w -> derived f (fst (WeakPtr.ctor_convert delta w))
  | derived_assign_copy this w :
      derived f w -> derived f (WeakPtr.assign_copy this w)
  | derived_assign_move this w :
      derived f w -> derived f (fst (WeakPtr.assign_move this w))
  | derived_moved_from w :
      derived f w -> derived f (snd (WeakPtr.ctor_move w))
  | derived_converted_from delta w :
      derived f w -> derived f (snd (WeakPtr.ctor_convert delta w))
  | derived_assigned_from this w :
      derived f w -> derived f (snd (WeakPtr.assign_move this w)).

(** Every [WeakPtr] the public constructors and assignments build. *)
Inductive constructible : WeakPtr.t -> Prop :=
  | constructible_default :
      constructible WeakPtr.ctor_default
  | constructible_derived f w :
      derived f w -> constructible w
  | constructible_copy w :
      constructible w -> constructible (WeakPtr.ctor_copy w)
  | constructible_move w :
      constructible w -> constructible (fst (WeakPtr.ctor_move w))
  | constructible_convert delta w :
      constructible w -> constructible (fst (WeakPtr.ctor_convert delta w)).

(** A default-constructed [WeakPtr], and what a move leaves of its
    source. *)
Inductive emptied : WeakPtr.t -> Prop :=
  | emptied_default :
      emptied WeakPtr.ctor_default
  | emptied_ctor_move other :
      emptied (snd (WeakPtr.ctor_move other))
  | emptied_ctor_convert delta other :
      emptied (snd (WeakPtr.ctor_convert delta other))
  | emptied_assign_move this other :
      emptied (snd (WeakPtr.assign_move this other)).

(** The step relation of one Validity State. *)
Inductive sd_step (d d' : WeakPtrSharedData.t) : Prop :=
  | sd_sharedLock :
      WeakPtrSharedData.sharedLock d = Ok (tt, d') -> sd_step d d'
  | sd_sharedUnlock :
      WeakPtrSharedData.sharedUnlock d = Ok (tt, d') -> sd_step d d'
  | sd_invalidate :
      WeakPtrSharedData.invalidate d = Ok (tt, d') -> sd_step d d'
  | sd_valid v :
      WeakPtrSharedData.valid d = Ok (v, d') -> sd_step d d'.

(** A run of a Validity State, and the number of times its liveness
    flag goes from true to false along it. *)
Fixpoint execution (d : WeakPtrSharedData.t) (ds : list WeakPtrSharedData.t) : Prop :=
  match ds with
  | [] => True
  | d' :: ds' => sd_step d d' /\ execution d' ds'
  end.

Fixpoint falls (d : WeakPtrSharedData.t) (ds : list WeakPtrSharedData.t) : nat :=
  match ds with
  | [] => 0
  | d' :: ds' =>
      (if WeakPtrSharedData.valid_ d && negb (WeakPtrSharedData.valid_ d') then 1 else 0)
      + falls d' ds'
  end.

Fixpoint rises (d : WeakPtrSharedData.t) (ds : list WeakPtrSharedData.t) : nat :=
  match ds with
  | [] => 0
  | d' :: ds' =>
      (if negb (WeakPtrSharedData.valid_ d) && WeakPtrSharedData.valid_ d' then 1 else 0)
      + rises d' ds'
  end.

(** ** A small scenario: one factory for the object at address 100 *)

Definition demo_factory : WeakPtrFactory.t := WeakPtrFactory.mk (Some 1%positive) 100%N.
Definition demo_handle : WeakPtr.t := WeakPtrBase.mk (Some 1%positive) 100%N.
Definition demo_store : store := {[ 1%positive := Block 1 WeakPtrSharedData.init ]}.
Definition demo_invalid : WeakPtrSharedData.t :=
  WeakPtrSharedData.mk shared_timed_mutex.init false.
(** The store once [demo_factory] is destroyed. *)
Definition demo_store_destroyed : store := {[ 1%positive := Block 0 demo_invalid ]}.
(** The store after a second factory has then been constructed. *)
Definition demo_store_later : store :=
  <[ 2%positive := Block 1 WeakPtrSharedData.init ]> demo_store_destroyed.
(** A member function that increments a counter of the host program. *)
Definition demo_increment (obj : pointer) (by_ : nat) : M (store * nat) unit :=
  fun '(h, counter) => Ok (tt, (h, counter + by_)).
Definition demo_callable : nat -> M (store * nat) unit :=
  match WeakPtrFactory.makeWeakMethod demo_factory demo_increment demo_store with
  | Ok (c, _) => c
  | Fault e => fun _ => raise e
  end.

(** ** Compositions of the operations *)

(** The shared owners of the mutex of the Validity State a link reaches. *)
Definition readers_at (h : store) (w : WeakRef) : nat :=
  match upgradable h w with
  | Some (_, b) => shared_timed_mutex.readers (WeakPtrSharedData.mutex_ (payload b))
  | None => 0
  end.

(** [lock()] on each handle of a list in turn, and the destruction of a
    list of guards in turn. *)
Fixpoint lock_all (ws : list WeakPtrBase.t) : M store (list WeakPtrGuard.t) :=
  match ws with
  | [] => mret []
  | w :: ws' =>
      g ← WeakPtrBase.lock w;
      gs ← lock_all ws';
      mret (g :: gs)
  end.

Fixpoint dtor_all (gs : list WeakPtrGuard.t) : M store unit :=
  match gs with
  | [] => mret tt
  | g :: gs' => WeakPtrGuard.dtor g;; dtor_all gs'
  end.

(** Two runs of the protocol: activity 0 has taken [lock()] and holds
    its Guard; activity 0 is inside [invalidate()] and has cleared the
    flag. *)
Definition demo_config_guarded : config :=
  Config ({[0]} ∪ ∅) None true
    (<[0 := Guard_held]> (<[0 := Lock_valid]> (<[0 := Lock_shared]>
       (<[0 := Lock_upgraded]> (fun _ => Idle))))).
Definition demo_config_invalidated : config :=
  Config ∅ (Some 0) false (<[0 := Inv_stored]> (<[0 := Inv_locked]> (fun _ => Idle))).

(** No mutex of the store is held exclusively. *)
Definition unlocked_exclusive (h : store) : Prop :=
  forall l b, h !! l = Some b ->
    shared_timed_mutex.writer (WeakPtrSharedData.mutex_ (payload b)) = false.

Definition keeps_unlocked {A} (m : M store A) : Prop :=
  forall h a h', m h = Ok (a, h') -> unlocked_exclusive h -> unlocked_exclusive h'.

(** * Proofs *)

Ltac monad_unfold :=
  unfold mbind, M_bind, bind, mret, M_ret, ret, raise, assert in *.

Lemma block_eta (b : control_block) : Block (use_count b) (payload b) = b.
Proof. by destruct b. Qed.

Lemma upgradable_Some h w l b :
  upgradable h w = Some (l, b) ->
  w = Some l /\ h !! l = Some b /\ exists n, use_count b = S n.
Proof.
  unfold upgradable. destruct w as [l'|]; [|done].
  destruct (h !! l') as [b'|] eqn:Hl; [|done].
  destruct (use_count b') eqn:Hc; [done|].
  intros [= <- <-]. eauto.
Qed.

(** Closed forms of the member functions that only read. *)

Lemma expired_eq (this : WeakPtrBase.t) (h : store) :
  WeakPtrBase.expired this h = Ok (negb (live h (WeakPtrBase.weak_ this)), h).
Proof.
  unfold WeakPtrBase.expired, live, weak_lock. monad_unfold.
  destruct (upgradable h _) as [[l b]|] eqn:Hu; [|done].
  apply upgradable_Some in Hu as (_ & Hl & n & Hn).
  unfold call, release, WeakPtrSharedData.valid. simplify_map_eq.
  rewrite Hn. simplify_map_eq.
  rewrite !insert_insert_eq, <- Hn, block_eta, insert_id; done.
Qed.

Lemma object_eq (this : WeakPtrBase.t) (h : store) :
  WeakPtrBase.object this h =
    Ok (if live h (WeakPtrBase.weak_ this) then WeakPtrBase.ptr_ this else nullptr, h).
Proof.
  unfold WeakPtrBase.object, live, weak_lock. monad_unfold.
  destruct (upgradable h _) as [[l b]|] eqn:Hu; [|done].
  apply upgradable_Some in Hu as (_ & Hl & n & Hn).
  unfold call, release, WeakPtrSharedData.valid. simplify_map_eq.
  rewrite Hn. simplify_map_eq.
  destruct (WeakPtrSharedData.valid_ (payload b)); simplify_map_eq;
    rewrite !insert_insert_eq, <- Hn, block_eta, insert_id; done.
Qed.

Lemma lock_eq (this : WeakPtrBase.t) (h : store) :
  WeakPtrBase.lock this h = lock_closed this h.
Proof.
  unfold WeakPtrBase.lock, lock_closed, weak_lock. monad_unfold.
  destruct (upgradable h _) as [[l b]|] eqn:Hu; [|done].
  apply upgradable_Some in Hu as (_ & Hl & n & Hn).
  destruct b as [c [[r wr] v]]; simpl in *; subst c.
  unfold call, WeakPtrSharedData.sharedLock, WeakPtrSharedData.on_mutex,
    shared_timed_mutex.lock_shared; simpl.
  simplify_map_eq.
  destruct wr; [done|]. simpl.
  unfold WeakPtrSharedData.valid; simpl. simplify_map_eq.
  destruct v; simpl.
  - unfold WeakPtrGuard.ctor, call, WeakPtrSharedData.valid. monad_unfold.
    simpl. simplify_map_eq. by rewrite !insert_insert_eq.
  - unfold WeakPtrSharedData.sharedUnlock, WeakPtrSharedData.on_mutex,
      shared_timed_mutex.unlock_shared, release, WeakPtrGuard.ctor; simpl.
    monad_unfold. simplify_map_eq.
    by rewrite !insert_insert_eq, insert_id.
Qed.

Lemma lock_not_live (this : WeakPtrBase.t) (h : store) :
  live h (WeakPtrBase.weak_ this) = false ->
  write_locked h (WeakPtrBase.weak_ this) = false ->
  WeakPtrBase.lock this h = Ok (WeakPtrGuard.mk None, h).
Proof.
  rewrite lock_eq. unfold live, write_locked, lock_closed.
  destruct (upgradable h _) as [[l b]|]; [|done].
  by intros -> ->.
Qed.

Lemma block_evolves_refl b : block_evolves b b.
Proof. by repeat split. Qed.

Lemma evolves_refl h : evolves h h.
Proof. intros l b Hl. exists b. split; [done|apply block_evolves_refl]. Qed.

Lemma evolves_trans h1 h2 h3 : evolves h1 h2 -> evolves h2 h3 -> evolves h1 h3.
Proof.
  intros H12 H23 l b Hl.
  destruct (H12 l b Hl) as (b2 & Hl2 & E1 & E2 & E3).
  destruct (H23 l b2 Hl2) as (b3 & Hl3 & F1 & F2 & F3).
  exists b3. split; [done|]. repeat split; [auto|auto|congruence].
Qed.

Lemma evolves_insert h l b b' :
  h !! l = Some b -> block_evolves b b' -> evolves h (<[l := b']> h).
Proof.
  intros Hl Hb l0 b0 Hl0. destruct (decide (l = l0)) as [->|Hne].
  - exists b'. rewrite lookup_insert_eq. split; [done|]. congruence.
  - exists b0. rewrite lookup_insert_ne by done. split; [done|apply block_evolves_refl].
Qed.

Lemma preserving_ret {A} (a : A) : preserving (mret a).
Proof. intros h a' h' [= _ <-]. apply evolves_refl. Qed.

Lemma preserving_bind {A B} (m : M store A) (k : A -> M store B) :
  preserving m -> (forall a, preserving (k a)) -> preserving (m ≫= k).
Proof.
  intros Hm Hk h b h'. monad_unfold.
  destruct (m h) as [[a h1]|] eqn:E; [|done].
  intros Hb. eapply evolves_trans; [by eapply Hm|by eapply Hk].
Qed.

Lemma preserving_assert (c : bool) : preserving (assert c).
Proof. destruct c; [apply (preserving_ret tt)|by intros ???]. Qed.

Lemma preserving_make_shared : preserving make_shared.
Proof.
  intros h s h' [= _ <-] l b Hl. exists b. split; [|apply block_evolves_refl].
  rewrite lookup_insert_ne; [done|].
  intros E. pose proof (is_fresh (dom h)) as Hf. rewrite E in Hf.
  apply Hf, elem_of_dom. eauto.
Qed.

Lemma preserving_weak_lock w : preserving (weak_lock w).
Proof.
  intros h s h'. unfold weak_lock.
  destruct (upgradable h w) as [[l b]|] eqn:Hu.
  - apply upgradable_Some in Hu as (_ & Hl & n & Hn). intros [= _ <-].
    eapply evolves_insert; [done|]. repeat split; simpl; [congruence|done].
  - intros [= _ <-]. apply evolves_refl.
Qed.

Lemma preserving_release s : preserving (release s).
Proof.
  intros h [] h'. unfold release. destruct s as [l|].
  - destruct (h !! l) as [b|] eqn:Hl; [|done].
    destruct (use_count b) eqn:Hc; [done|]. intros [= <-].
    eapply evolves_insert; [done|]. repeat split; simpl; [congruence|done].
  - intros [= <-]. apply evolves_refl.
Qed.

(** [call] preserves what the member function preserves. *)
Lemma preserving_call {A} s (f : M WeakPtrSharedData.t A) :
  (forall d a d', f d = Ok (a, d') ->
     (WeakPtrSharedData.valid_ d = false -> WeakPtrSharedData.valid_ d' = false) /\
     shared_timed_mutex.writer (WeakPtrSharedData.mutex_ d') =
     shared_timed_mutex.writer (WeakPtrSharedData.mutex_ d)) ->
  preserving (call s f).
Proof.
  intros Hf h a h'. unfold call. destruct s as [l|]; [|done].
  destruct (h !! l) as [b|] eqn:Hl; [|done].
  destruct (use_count b) eqn:Hc; [done|].
  destruct (f (payload b)) as [[a' d']|] eqn:Ef; [|done]. intros [= _ <-].
  destruct (Hf _ _ _ Ef) as [Hv Hw].
  eapply evolves_insert; [done|]. repeat split; simpl; [congruence|done|done].
Qed.

Lemma preserving_sharedLock s : preserving (call s WeakPtrSharedData.sharedLock).
Proof.
  apply preserving_call. intros [[r w] v] [] d'.
  unfold WeakPtrSharedData.sharedLock, WeakPtrSharedData.on_mutex,
    shared_timed_mutex.lock_shared; simpl.
  destruct w; [done|]. by intros [= <-].
Qed.

Lemma preserving_sharedUnlock s : preserving (call s WeakPtrSharedData.sharedUnlock).
Proof.
  apply preserving_call. intros [[r w] v] [] d'.
  unfold WeakPtrSharedData.sharedUnlock, WeakPtrSharedData.on_mutex,
    shared_timed_mutex.unlock_shared; simpl.
  destruct r; [done|]. by intros [= <-].
Qed.

Lemma preserving_invalidate s : preserving (call s WeakPtrSharedData.invalidate).
Proof.
  apply preserving_call. intros [[r w] v] [] d'.
  unfold WeakPtrSharedData.invalidate, WeakPtrSharedData.on_mutex,
    WeakPtrSharedData.store_valid, shared_timed_mutex.lock,
    shared_timed_mutex.unlock. monad_unfold. simpl.
  destruct w; [done|]. destruct r; [|done]. simpl. by intros [= <-].
Qed.

Lemma preserving_valid s : preserving (call s WeakPtrSharedData.valid).
Proof.
  apply preserving_call. intros d v d'. unfold WeakPtrSharedData.valid.
  by intros [= _ <-].
Qed.

Create HintDb preserving.
#[export] Hint Resolve preserving_make_shared preserving_weak_lock
  preserving_release preserving_sharedLock preserving_sharedUnlock
  preserving_invalidate preserving_valid preserving_assert : preserving.

Ltac preserving :=
  repeat first
    [ apply preserving_bind; [|intros ?]
    | apply preserving_ret
    | progress eauto with preserving
    | match goal with
      | |- preserving (match ?x with _ => _ end) => destruct x
      | |- preserving (if ?x then _ else _) => destruct x
      end ].

Lemma preserving_guard_ctor s : preserving (WeakPtrGuard.ctor s).
Proof. unfold WeakPtrGuard.ctor; simpl. preserving. Qed.

Lemma preserving_guard_dtor g : preserving (WeakPtrGuard.dtor g).
Proof. unfold WeakPtrGuard.dtor. preserving. Qed.

#[export] Hint Resolve preserving_guard_ctor preserving_guard_dtor : preserving.

Lemma preserving_lock w : preserving (WeakPtrBase.lock w).
Proof. unfold WeakPtrBase.lock. preserving. Qed.

Lemma preserving_expired w : preserving (WeakPtrBase.expired w).
Proof. unfold WeakPtrBase.expired. preserving. Qed.

Lemma preserving_object w : preserving (WeakPtrBase.object w).
Proof. unfold WeakPtrBase.object. preserving. Qed.

#[export] Hint Resolve preserving_lock preserving_expired preserving_object : preserving.

Lemma preserving_operator_bool w : preserving (WeakPtrBase.operator_bool w).
Proof. unfold WeakPtrBase.operator_bool. preserving. Qed.

Lemma preserving_operator_arrow w : preserving (WeakPtr.operator_arrow w).
Proof. unfold WeakPtr.operator_arrow. preserving. Qed.

Lemma preserving_factory_ctor obj : preserving (WeakPtrFactory.ctor obj).
Proof. unfold WeakPtrFactory.ctor. preserving. Qed.

Lemma preserving_factory_dtor f : preserving (WeakPtrFactory.dtor f).
Proof. unfold WeakPtrFactory.dtor. preserving. Qed.

Lemma preserving_makeWeakPtr f : preserving (WeakPtrFactory.makeWeakPtr f).
Proof.
  unfold WeakPtrFactory.makeWeakPtr, WeakPtr.ctor, WeakPtrBase.ctor; simpl.
  preserving.
Qed.

Lemma step_evolves h h' : step h h' -> evolves h h'.
Proof.
  destruct 1;
    [ eapply preserving_factory_ctor | eapply preserving_factory_dtor
    | eapply preserving_makeWeakPtr | eapply preserving_lock
    | eapply preserving_expired | eapply preserving_operator_bool
    | eapply preserving_object | eapply preserving_operator_arrow
    | eapply preserving_guard_dtor | eapply preserving_sharedLock
    | eapply preserving_sharedUnlock | eapply preserving_invalidate
    | eapply preserving_valid | eapply preserving_make_shared
    | eapply preserving_weak_lock | eapply preserving_release ]; eassumption.
Qed.

Lemma reachable_evolves h h' : reachable h h' -> evolves h h'.
Proof.
  induction 1 as [|h1 h2 h3 H12 _ IH]; [apply evolves_refl|].
  eapply evolves_trans; [by apply step_evolves|done].
Qed.

(** * The scenario *)

Lemma demo_factory_ctor : WeakPtrFactory.ctor 100%N ∅ = Ok (demo_factory, demo_store).
Proof. reflexivity. Qed.

Lemma demo_makeWeakPtr h : WeakPtrFactory.makeWeakPtr demo_factory h = Ok (demo_handle, h).
Proof. reflexivity. Qed.

Lemma demo_factory_dtor :
  WeakPtrFactory.dtor demo_factory demo_store = Ok (tt, demo_store_destroyed).
Proof. reflexivity. Qed.

(** * Handles derived from a factory *)

Lemma makeWeakPtr_inv f h w h' :
  WeakPtrFactory.makeWeakPtr f h = Ok (w, h') ->
  w = WeakPtrBase.mk (WeakPtrFactory.strong_ f) (WeakPtrFactory.obj_ f) /\
  h' = h /\ WeakPtrFactory.obj_ f <> nullptr.
Proof.
  unfold WeakPtrFactory.makeWeakPtr, WeakPtr.ctor, WeakPtrBase.ctor, is_null.
  monad_unfold. simpl.
  destruct (N.eqb_spec (WeakPtrFactory.obj_ f) nullptr); simpl; [done|].
  by intros [= <- <-].
Qed.

Lemma static_cast_nonnull delta p : p <> nullptr -> static_cast delta p <> nullptr.
Proof.
  unfold static_cast, is_null, nullptr. intros Hp.
  destruct (N.eqb_spec p 0); [done|lia].
Qed.

Lemma derived_link f w :
  derived f w ->
  WeakPtrBase.weak_ w = WeakPtrFactory.strong_ f \/ WeakPtrBase.weak_ w = None.
Proof.
  induction 1 as [h w h' Hm| | | | | | | |]; simpl; auto.
  apply makeWeakPtr_inv in Hm as (-> & _ & _). by left.
Qed.

Lemma derived_ptr f w : derived f w -> WeakPtrBase.ptr_ w <> nullptr.
Proof.
  induction 1 as [h w h' Hm| | |delta w _ IH| | | | |]; simpl; auto.
  - by apply makeWeakPtr_inv in Hm as (-> & _ & ?).
  - by apply static_cast_nonnull.
Qed.

Lemma emptied_link w : emptied w -> WeakPtrBase.weak_ w = None.
Proof. by destruct 1. Qed.

(** * C4: expired() and the boolean conversion *)

(** C4. [expired()] returns, without changing the store, true exactly
    when the linked Validity State no longer exists or exists with its
    liveness flag false; the boolean conversion returns the negation. *)
Theorem expired_iff_gone_or_invalid (this : WeakPtrBase.t) (h : store) :
  exists e : bool,
    WeakPtrBase.expired this h = Ok (e, h) /\
    WeakPtrBase.operator_bool this h = Ok (negb e, h) /\
    (e = true <->
       validity_state h (WeakPtrBase.weak_ this) = None \/
       exists d, validity_state h (WeakPtrBase.weak_ this) = Some d /\
                 WeakPtrSharedData.valid_ d = false) /\
    (e = false <->
       exists d, validity_state h (WeakPtrBase.weak_ this) = Some d /\
                 WeakPtrSharedData.valid_ d = true).
Proof.
  exists (negb (live h (WeakPtrBase.weak_ this))).
  split; [apply expired_eq|]. split.
  { unfold WeakPtrBase.operator_bool. monad_unfold. by rewrite expired_eq. }
  unfold live, validity_state.
  destruct (upgradable h _) as [[l b]|]; simpl.
  - destruct (WeakPtrSharedData.valid_ (payload b)) eqn:Hv; simpl.
    + split; split; try done.
      * intros [?|(d & [= <-] & ?)]; congruence.
      * eauto.
    + split; split; try done.
      * right; eauto.
      * intros (d & [= <-] & ?); congruence.
  - split; split; try done.
    + by left.
    + by intros (d & ? & _).
Qed.

(** * C2: lock() *)

(** C2. [lock()] computes what its description says, fault for fault
    and store for store. *)
Theorem lock_refines_spec (this : WeakPtrBase.t) (h : store) :
  WeakPtrBase.lock this h = lock_spec this h.
Proof.
  rewrite lock_eq. unfold lock_closed, lock_spec.
  destruct (upgradable h _) as [[l b]|] eqn:Hu; [|done].
  apply upgradable_Some in Hu as (_ & Hl & n & Hn).
  destruct b as [c [[r wr] v]]; simpl in *.
  unfold WeakPtrSharedData.sharedLock, WeakPtrSharedData.sharedUnlock,
    WeakPtrSharedData.on_mutex, shared_timed_mutex.lock_shared,
    shared_timed_mutex.unlock_shared; simpl.
  destruct wr; [done|]. destruct v; simpl; [done|].
  by rewrite insert_id.
Qed.

(** * C10: empty handles *)

(** C10. A default-constructed [WeakPtr] and a moved-from [WeakPtr] have
    an empty link; in every store the queries answer "expired" without
    a fault and without touching the store, and only [operator->] fails
    its assertion. *)
Theorem emptied_handle_queries (w : WeakPtr.t) (h : store) :
  emptied w ->
  WeakPtrBase.weak_ w = None /\
  WeakPtrBase.expired w h = Ok (true, h) /\
  WeakPtrBase.operator_bool w h = Ok (false, h) /\
  WeakPtrBase.lock w h = Ok (WeakPtrGuard.mk None, h) /\
  WeakPtrBase.object w h = Ok (nullptr, h) /\
  WeakPtr.operator_arrow w h = Fault AssertionFailed.
Proof.
  intros Hw. pose proof (emptied_link w Hw) as Hl.
  split; [done|]. split; [by rewrite expired_eq, Hl|].
  split. { unfold WeakPtrBase.operator_bool. monad_unfold. by rewrite expired_eq, Hl. }
  split. { apply lock_not_live; by rewrite Hl. }
  split; [by rewrite object_eq, Hl|].
  unfold WeakPtr.operator_arrow. monad_unfold. by rewrite object_eq, Hl.
Qed.

Lemma emptied_handle_queries_witness :
  WeakPtrBase.weak_ WeakPtr.ctor_default = None /\
  WeakPtrBase.expired WeakPtr.ctor_default demo_store = Ok (true, demo_store) /\
  WeakPtrBase.operator_bool WeakPtr.ctor_default demo_store = Ok (false, demo_store) /\
  WeakPtrBase.lock WeakPtr.ctor_default demo_store = Ok (WeakPtrGuard.mk None, demo_store) /\
  WeakPtrBase.object WeakPtr.ctor_default demo_store = Ok (nullptr, demo_store) /\
  WeakPtr.operator_arrow WeakPtr.ctor_default demo_store = Fault AssertionFailed.
Proof.
  apply (emptied_handle_queries WeakPtr.ctor_default demo_store).
  exact emptied_default.
Defined.

(** * C9: the Guard made by lock() *)

(** C9. [lock()] never fails the assertion of the Guard constructor, and
    a Guard it returns satisfies the acquisition invariant. *)
Theorem lock_guard_invariant (this : WeakPtrBase.t) (h : store) :
  WeakPtrBase.lock this h <> Fault AssertionFailed /\
  forall g h', WeakPtrBase.lock this h = Ok (g, h') -> guard_acquired this h g h'.
Proof.
  rewrite lock_eq. unfold lock_closed, guard_acquired.
  destruct (upgradable h _) as [[l b]|] eqn:Hu.
  - apply upgradable_Some in Hu as (Hw & Hl & n & Hn).
    destruct b as [c [[r wr] v]]; simpl in *; subst c.
    destruct wr; [split; [done|intros ?? [=]]|].
    destruct v; (split; [done|]); intros g h' [= <- <-]; simpl; [|done].
    exists (Block (S n) (WeakPtrSharedData.mk (shared_timed_mutex.mk r false) true)).
    exists (Block (S (S n)) (WeakPtrSharedData.mk (shared_timed_mutex.mk (S r) false) true)).
    rewrite lookup_insert_eq. do 7 (split; [done|]). split.
    + unfold call. by rewrite ?lookup_insert_eq.
    + unfold WeakPtrGuard.ctor, call, WeakPtrSharedData.valid. monad_unfold. simpl.
      rewrite ?lookup_insert_eq. simpl. by rewrite insert_insert_eq.
  - split; [done|]. by intros g h' [= <- <-].
Qed.

Lemma lock_guard_invariant_witness :
  guard_acquired demo_handle demo_store (WeakPtrGuard.mk (Some 1%positive))
    {[ 1%positive := Block 2 (WeakPtrSharedData.mk (shared_timed_mutex.mk 1 false) true) ]}.
Proof.
  apply (proj2 (lock_guard_invariant demo_handle demo_store)).
  reflexivity.
Defined.

(** * C6: the stored pointer *)

(** C6, as stated, fails: the default constructor is a public way of
    constructing a [WeakPtr], and it stores the null pointer. *)
Lemma default_constructed_pointer_is_null :
  constructible WeakPtr.ctor_default /\
  WeakPtrBase.ptr_ WeakPtr.ctor_default = nullptr.
Proof. split; [constructor|reflexivity]. Qed.

(** C6, amended. The stored pointer of a handle derived from a factory
    (made by it, or a copy, a move or a conversion of such a handle,
    or what a move left of one) is never null. *)
Theorem derived_pointer_not_null (f : WeakPtrFactory.t) (w : WeakPtr.t) :
  derived f w -> WeakPtrBase.ptr_ w <> nullptr.
Proof. apply derived_ptr. Qed.

Lemma derived_pointer_not_null_witness :
  WeakPtrBase.ptr_ (fst (WeakPtr.ctor_convert 8 demo_handle)) <> nullptr.
Proof.
  apply (derived_pointer_not_null demo_factory).
  apply derived_convert. apply (derived_make _ demo_store demo_handle demo_store).
  reflexivity.
Defined.

(** A null pointer is stored only in handles with an empty link. *)
Lemma constructible_null_pointer_empty (w : WeakPtr.t) :
  constructible w -> WeakPtrBase.ptr_ w = nullptr -> WeakPtrBase.weak_ w = None.
Proof.
  induction 1 as [|f w Hd| | |delta w _ IH]; simpl; auto.
  - intros Hp. by apply derived_ptr in Hd.
  - unfold static_cast, is_null, nullptr in *.
    destruct (N.eqb_spec (WeakPtrBase.ptr_ w) 0); [auto|lia].
Qed.

(** * C5: conversion to a base type *)

(** C5, as stated, fails: the conversion moves the link out of the
    original, which is expired from then on while the converted handle
    is not. *)
Lemma convert_original_differs :
  let converted := fst (WeakPtr.ctor_convert 0 demo_handle) in
  let original := snd (WeakPtr.ctor_convert 0 demo_handle) in
  WeakPtrBase.expired original demo_store = Ok (true, demo_store) /\
  WeakPtrBase.expired converted demo_store = Ok (false, demo_store) /\
  WeakPtrBase.expired original demo_store <> WeakPtrBase.expired converted demo_store.
Proof. repeat split. discriminate. Qed.

(** C5, amended. The conversion moves the link and upcasts the pointer:
    the converted handle is linked to the Validity State the original
    was linked to before the conversion, so in every store it expires
    and locks as the original did and as every copy of it does; the
    original is left with an empty link and the pointer it had, and is
    expired in every store. *)
Theorem convert_moves_link (delta : N) (other : WeakPtr.t) (h : store) :
  let converted := fst (WeakPtr.ctor_convert delta other) in
  let original := snd (WeakPtr.ctor_convert delta other) in
  WeakPtrBase.weak_ converted = WeakPtrBase.weak_ other /\
  WeakPtrBase.ptr_ converted = static_cast delta (WeakPtrBase.ptr_ other) /\
  WeakPtrBase.expired converted h = WeakPtrBase.expired other h /\
  WeakPtrBase.expired converted h = WeakPtrBase.expired (WeakPtr.ctor_copy other) h /\
  WeakPtrBase.lock converted h = WeakPtrBase.lock other h /\
  WeakPtrBase.weak_ original = None /\
  WeakPtrBase.ptr_ original = WeakPtrBase.ptr_ other /\
  WeakPtrBase.expired original h = Ok (true, h).
Proof.
  simpl. repeat split; by rewrite ?expired_eq, ?lock_eq.
Qed.

(** * C3: the liveness flag *)

Lemma sd_step_valid d d' :
  sd_step d d' ->
  WeakPtrSharedData.valid_ d = false -> WeakPtrSharedData.valid_ d' = false.
Proof.
  destruct d as [[r w] v].
  unfold WeakPtrSharedData.sharedLock, WeakPtrSharedData.sharedUnlock,
    WeakPtrSharedData.invalidate, WeakPtrSharedData.valid,
    WeakPtrSharedData.on_mutex, WeakPtrSharedData.store_valid,
    shared_timed_mutex.lock_shared, shared_timed_mutex.unlock_shared,
    shared_timed_mutex.lock, shared_timed_mutex.unlock.
  destruct 1 as [H|H|H|b H]; monad_unfold; simpl in *.
  - destruct w; [done|]. by injection H as <-.
  - destruct r; [done|]. by injection H as <-.
  - destruct w; [done|]. destruct r; [|done]. by injection H as <-.
  - by injection H as _ <-.
Qed.

Lemma execution_flips d ds :
  execution d ds ->
  falls d ds <= (if WeakPtrSharedData.valid_ d then 1 else 0) /\ rises d ds = 0.
Proof.
  revert d. induction ds as [|d' ds IH]; intros d; simpl.
  - intros _. split; [lia|done].
  - intros [Hs He]. destruct (IH d' He) as [IHf IHr].
    pose proof (sd_step_valid d d' Hs) as Hv.
    destruct (WeakPtrSharedData.valid_ d); simpl.
    + destruct (WeakPtrSharedData.valid_ d'); simpl in *; split; lia.
    + rewrite Hv in * by done. simpl. split; lia.
Qed.

(** C3. The liveness flag is true at construction; no member function
    of the Validity State and no operation of the library sets it back
    to true; along any run it goes from true to false at most once and
    never from false to true. *)
Theorem liveness_flag_falls_once :
  WeakPtrSharedData.valid_ WeakPtrSharedData.init = true /\
  (forall h s h', make_shared h = Ok (s, h') ->
     validity_state h' s = Some WeakPtrSharedData.init) /\
  (forall d d', rtc sd_step d d' ->
     WeakPtrSharedData.valid_ d = false -> WeakPtrSharedData.valid_ d' = false) /\
  (forall d ds, execution d ds -> falls d ds <= 1 /\ rises d ds = 0) /\
  (forall h h' l b, reachable h h' -> h !! l = Some b ->
     WeakPtrSharedData.valid_ (payload b) = false ->
     exists b', h' !! l = Some b' /\ WeakPtrSharedData.valid_ (payload b') = false).
Proof.
  split; [done|]. split; [|split; [|split]].
  - intros h s h' [= <- <-]. unfold validity_state, upgradable.
    by rewrite lookup_insert_eq.
  - induction 1 as [|d1 d2 d3 H12 _ IH]; [done|].
    intros Hv. apply IH. by eapply sd_step_valid.
  - intros d ds He. destruct (execution_flips d ds He) as [Hf Hr].
    split; [|done]. destruct (WeakPtrSharedData.valid_ d); lia.
  - intros h h' l b Hr Hl Hv.
    destruct (reachable_evolves h h' Hr l b Hl) as (b' & Hl' & _ & Hv' & _).
    eauto.
Qed.

Lemma liveness_flag_falls_once_witness :
  falls WeakPtrSharedData.init [demo_invalid; demo_invalid] <= 1 /\
  rises WeakPtrSharedData.init [demo_invalid; demo_invalid] = 0.
Proof.
  apply (proj1 (proj2 (proj2 (proj2 liveness_flag_falls_once)))).
  simpl. split; [|split; [|exact I]]; apply sd_invalidate; reflexivity.
Defined.

(** * C1 and C8: expiry is permanent *)

Lemma evolves_not_live h h' l :
  evolves h h' -> is_Some (h !! l) ->
  live h (Some l) = false -> live h' (Some l) = false.
Proof.
  intros He [b Hl]. destruct (He l b Hl) as (b' & Hl' & Hc & Hv & _).
  unfold live, upgradable. rewrite Hl, Hl'.
  destruct (use_count b) eqn:Ec.
  - by rewrite Hc.
  - intros Hb. destruct (use_count b'); [done|auto].
Qed.

Lemma evolves_not_write_locked h h' l :
  evolves h h' -> is_Some (h !! l) ->
  live h (Some l) = false -> write_locked h (Some l) = false ->
  write_locked h' (Some l) = false.
Proof.
  intros He [b Hl]. destruct (He l b Hl) as (b' & Hl' & Hc & _ & Hw).
  unfold live, write_locked, upgradable. rewrite Hl, Hl'.
  destruct (use_count b) eqn:Ec.
  - by rewrite Hc.
  - intros _ Hb. destruct (use_count b'); [done|congruence].
Qed.

Lemma factory_dtor_inv f h h1 :
  WeakPtrFactory.dtor f h = Ok (tt, h1) ->
  exists l, WeakPtrFactory.strong_ f = Some l /\ is_Some (h1 !! l) /\
            live h1 (Some l) = false /\ write_locked h1 (Some l) = false.
Proof.
  unfold WeakPtrFactory.dtor, call, release. monad_unfold.
  destruct (WeakPtrFactory.strong_ f) as [l|]; [|done].
  destruct (h !! l) as [[c [[r w] v]]|] eqn:Hl; [|done]. simpl.
  destruct c as [|c]; [done|].
  unfold WeakPtrSharedData.invalidate, WeakPtrSharedData.on_mutex,
    WeakPtrSharedData.store_valid, shared_timed_mutex.lock,
    shared_timed_mutex.unlock. monad_unfold. simpl.
  destruct w; [done|]. destruct r; [|done]. simpl.
  rewrite lookup_insert_eq. simpl. intros [= <-].
  exists l. split; [done|]. unfold live, write_locked, upgradable.
  rewrite lookup_insert_eq. simpl. split; [eauto|]. by destruct c.
Qed.

(** C1. Once the destructor of factory [f] has returned, in every store
    reached by any later operations every handle derived from [f] is
    expired, locks to an empty Guard and yields no object pointer, and
    none of these calls changes the store. *)
Theorem destroyed_factory_expires_handles
    (f : WeakPtrFactory.t) (w : WeakPtr.t) (h h1 h2 : store) :
  derived f w ->
  WeakPtrFactory.dtor f h = Ok (tt, h1) ->
  reachable h1 h2 ->
  WeakPtrBase.expired w h2 = Ok (true, h2) /\
  WeakPtrBase.operator_bool w h2 = Ok (false, h2) /\
  WeakPtrBase.lock w h2 = Ok (WeakPtrGuard.mk None, h2) /\
  WeakPtrBase.object w h2 = Ok (nullptr, h2).
Proof.
  intros Hd Hdtor Hr.
  assert (live h2 (WeakPtrBase.weak_ w) = false /\
          write_locked h2 (WeakPtrBase.weak_ w) = false) as [Hlive Hwl].
  { destruct (derived_link f w Hd) as [-> | ->]; [|done].
    destruct (factory_dtor_inv f h h1 Hdtor) as (l & -> & Hl & Hnl & Hnw).
    apply reachable_evolves in Hr.
    split; [by eapply evolves_not_live|by eapply evolves_not_write_locked]. }
  split; [by rewrite expired_eq, Hlive|].
  split. { unfold WeakPtrBase.operator_bool. monad_unfold. by rewrite expired_eq, Hlive. }
  split; [by apply lock_not_live|].
  by rewrite object_eq, Hlive.
Qed.

Lemma destroyed_factory_expires_handles_witness :
  WeakPtrBase.expired demo_handle demo_store_later = Ok (true, demo_store_later) /\
  WeakPtrBase.operator_bool demo_handle demo_store_later = Ok (false, demo_store_later) /\
  WeakPtrBase.lock demo_handle demo_store_later
    = Ok (WeakPtrGuard.mk None, demo_store_later) /\
  WeakPtrBase.object demo_handle demo_store_later = Ok (nullptr, demo_store_later).
Proof.
  apply (destroyed_factory_expires_handles demo_factory demo_handle
           demo_store demo_store_destroyed demo_store_later).
  - apply (derived_make _ demo_store demo_handle demo_store). reflexivity.
  - reflexivity.
  - apply rtc_once. by apply (step_factory_ctor _ _ 200%N (WeakPtrFactory.mk (Some 2%positive) 200%N)).
Defined.

(** C8. [expired()] does not change the store, so calling it again
    gives the same answer; and once it has returned true on a handle
    whose link, if any, names a control block of the store, it returns
    true in every store reached by any later operations. *)
Theorem expired_idempotent_monotonic (w : WeakPtr.t) (h h1 : store) (e : bool) :
  (forall l, WeakPtrBase.weak_ w = Some l -> is_Some (h !! l)) ->
  WeakPtrBase.expired w h = Ok (e, h1) ->
  h1 = h /\
  WeakPtrBase.expired w h1 = Ok (e, h1) /\
  (e = true ->
   forall h2, reachable h1 h2 -> WeakPtrBase.expired w h2 = Ok (true, h2)).
Proof.
  intros Hwf. rewrite expired_eq. intros [= <- <-].
  split; [done|]. split; [apply expired_eq|].
  intros He h2 Hr. rewrite expired_eq. f_equal. f_equal.
  apply negb_true_iff in He. apply negb_true_iff.
  destruct (WeakPtrBase.weak_ w) as [l|] eqn:Hw; [|done].
  apply reachable_evolves in Hr. eapply evolves_not_live; eauto.
Qed.

Lemma expired_idempotent_monotonic_witness :
  demo_store_destroyed = demo_store_destroyed /\
  WeakPtrBase.expired demo_handle demo_store_destroyed = Ok (true, demo_store_destroyed) /\
  (true = true ->
   forall h2, reachable demo_store_destroyed h2 ->
              WeakPtrBase.expired demo_handle h2 = Ok (true, h2)).
Proof.
  apply (expired_idempotent_monotonic demo_handle demo_store_destroyed).
  - intros l [= <-]. by eexists.
  - reflexivity.
Defined.

(** * C7: bound methods *)

Lemma lock_Ok_object this h g h1 :
  WeakPtrBase.lock this h = Ok (g, h1) ->
  (WeakPtrGuard.strong_ g = None /\ h1 = h /\ live h1 (WeakPtrBase.weak_ this) = false) \/
  (exists l, WeakPtrGuard.strong_ g = Some l /\ live h1 (WeakPtrBase.weak_ this) = true).
Proof.
  rewrite lock_eq. unfold lock_closed, live.
  destruct (upgradable h _) as [[l b]|] eqn:Hu.
  - pose proof Hu as Hu'. apply upgradable_Some in Hu' as (Hw & Hl & n & Hn).
    destruct (shared_timed_mutex.writer _); [done|].
    destruct (WeakPtrSharedData.valid_ (payload b)) eqn:Hv; intros [= <- <-].
    + right. exists l. split; [done|]. rewrite Hw. unfold upgradable.
      by rewrite lookup_insert_eq.
    + left. by rewrite Hu, Hv.
  - intros [= <- <-]. left. by rewrite Hu.
Qed.

(** C7. The callable made by [makeWeakMethod] first takes [lock()] and
    does not return when [lock()] does not; when the object pointer is
    obtainable it runs the member function on the wrapped object with
    the parameters it was given, under the Guard, which it releases
    afterwards; when it is not obtainable, and in particular in every
    store reached after the factory's destructor has returned, the call
    returns without a fault and leaves the store and the memory of the
    host program as they were, whatever the member function is. *)
Theorem weak_method_call {U P R : Type}
    (f : WeakPtrFactory.t) (method : pointer -> P -> M (store * U) R)
    (h0 h0' : store) (callable : P -> M (store * U) unit) :
  WeakPtrFactory.makeWeakMethod f method h0 = Ok (callable, h0') ->
  forall (params : P) (h : store) (u : U),
    let weakPtr := WeakPtrBase.mk (WeakPtrFactory.strong_ f) (WeakPtrFactory.obj_ f) in
    (forall e, WeakPtrBase.lock weakPtr h = Fault e ->
       callable params (h, u) = Fault e) /\
    (forall guard h1 obj,
       WeakPtrBase.lock weakPtr h = Ok (guard, h1) ->
       WeakPtrBase.object weakPtr h1 = Ok (obj, h1) -> obj <> nullptr ->
       obj = WeakPtrFactory.obj_ f /\
       callable params (h, u) =
         (method obj params ≫= fun _ => on_fst (WeakPtrGuard.dtor guard)) (h1, u)) /\
    (forall guard h1,
       WeakPtrBase.lock weakPtr h = Ok (guard, h1) ->
       WeakPtrBase.object weakPtr h1 = Ok (nullptr, h1) ->
       callable params (h, u) = Ok (tt, (h, u))) /\
    (forall ha hb,
       WeakPtrFactory.dtor f ha = Ok (tt, hb) -> reachable hb h ->
       callable params (h, u) = Ok (tt, (h, u))).
Proof.
  intros Hm params h u weakPtr.
  unfold WeakPtrFactory.makeWeakMethod in Hm. monad_unfold.
  destruct (WeakPtrFactory.makeWeakPtr f h0) as [[w h']|] eqn:Ew; [|done].
  apply makeWeakPtr_inv in Ew as (-> & -> & Hobj).
  injection Hm as <- <-. fold weakPtr.
  assert (Hnull : is_null (WeakPtrFactory.obj_ f) = false).
  { unfold is_null. by apply N.eqb_neq. }
  assert (Hempty : forall h1,
    WeakPtrBase.lock weakPtr h = Ok (WeakPtrGuard.mk None, h1) ->
    live h1 (WeakPtrFactory.strong_ f) = false -> h1 = h ->
    (guard ← on_fst (WeakPtrBase.lock weakPtr);
     obj ← on_fst (WeakPtrBase.object weakPtr);
     (if is_null obj then mret tt else method obj params;; mret tt);;
     on_fst (WeakPtrGuard.dtor guard)) (h, u) = Ok (tt, (h, u))).
  { intros h1 El Hlive ->. monad_unfold. unfold on_fst. simpl.
    rewrite El. simpl. rewrite object_eq. simpl. by rewrite Hlive. }
  split; [|split; [|split]].
  - intros e El. monad_unfold. unfold on_fst. simpl. by rewrite El.
  - intros guard h1 obj El Eo Hne. rewrite object_eq in Eo. simpl in Eo.
    destruct (live h1 (WeakPtrFactory.strong_ f)) eqn:Hlive;
      injection Eo as <-; [|done].
    split; [done|]. monad_unfold. unfold on_fst. simpl.
    rewrite El. simpl. rewrite object_eq. simpl. rewrite Hlive, Hnull.
    by destruct (method _ params (h1, u)) as [[r [h2 u2]]|].
  - intros guard h1 El Eo. rewrite object_eq in Eo. simpl in Eo.
    destruct (lock_Ok_object _ _ _ _ El) as [(Hg & -> & Hlive)|(l & _ & Hlive)].
    + destruct guard as [s]. simpl in Hg. subst s. by apply (Hempty h).
    + simpl in Hlive. rewrite Hlive in Eo. by injection Eo.
  - intros ha hb Hdtor Hr.
    destruct (factory_dtor_inv f ha hb Hdtor) as (l & Hf & Hl & Hnl & Hnw).
    apply reachable_evolves in Hr.
    assert (live h (WeakPtrFactory.strong_ f) = false) as Hlive
      by (rewrite Hf; by eapply evolves_not_live).
    apply (Hempty h); [|done|done].
    apply lock_not_live; simpl; [done|].
    rewrite Hf. by eapply evolves_not_write_locked.
Qed.

Lemma weak_method_call_witness :
  demo_callable 3 (demo_store_later, 5) = Ok (tt, (demo_store_later, 5)).
Proof.
  refine (proj2 (proj2 (proj2
    (weak_method_call demo_factory demo_increment demo_store demo_store
       demo_callable _ 3 demo_store_later 5))) demo_store demo_store_destroyed _ _).
  - reflexivity.
  - reflexivity.
  - apply rtc_once.
    by apply (step_factory_ctor _ _ 200%N (WeakPtrFactory.mk (Some 2%positive) 200%N)).
Defined.

(** Three handles of one factory: not expired while it lives, all
    expired and locking to empty Guards once it is destroyed. *)
Example demo_three_handles :
  (f ← WeakPtrFactory.ctor 100%N;
   h1 ← WeakPtrFactory.makeWeakPtr f;
   h2 ← WeakPtrFactory.makeWeakPtr f;
   h3 ← WeakPtrFactory.makeWeakPtr f;
   before ← WeakPtrBase.expired h1;
   WeakPtrFactory.dtor f;;
   e1 ← WeakPtrBase.expired h1;
   e2 ← WeakPtrBase.expired h2;
   e3 ← WeakPtrBase.expired h3;
   g1 ← WeakPtrBase.lock h1;
   g2 ← WeakPtrBase.lock h2;
   g3 ← WeakPtrBase.lock h3;
   mret (before, [e1; e2; e3], WeakPtrGuard.empty <$> [g1; g2; g3])) ∅
  = Ok ((false, [true; true; true], [true; true; true]), demo_store_destroyed).
Proof. reflexivity. Qed.

(** The destructor of the factory waits while a Guard is alive. *)
Example demo_dtor_waits_for_guard :
  (f ← WeakPtrFactory.ctor 100%N;
   h1 ← WeakPtrFactory.makeWeakPtr f;
   g1 ← WeakPtrBase.lock h1;
   WeakPtrFactory.dtor f) ∅ = Fault WouldBlock.
Proof. reflexivity. Qed.

(** The bound increment while the object lives, and after its factory
    is destroyed. *)
Example demo_callable_alive :
  demo_callable 3 (demo_store, 5) = Ok (tt, (demo_store, 8)).
Proof. reflexivity. Qed.

Example demo_callable_destroyed :
  demo_callable 3 (demo_store_destroyed, 5) = Ok (tt, (demo_store_destroyed, 5)).
Proof. reflexivity. Qed.

(** * The locking protocol under interleaving *)

Lemma protocol_inv_init : protocol_inv config_init.
Proof. split; simpl; done. Qed.

Ltac at_cases t t' :=
  destruct (decide (t = t')) as [<-|?];
  [rewrite ?fn_lookup_insert in *|rewrite ?fn_lookup_insert_ne in * by done].

Lemma guarded_reading p : guarded p = true -> reading p = true.
Proof. by destruct p. Qed.

(** A move of one activity that keeps what it holds. *)
Lemma protocol_inv_move hs w v a t p' :
  protocol_inv (Config hs w v a) ->
  reading p' = reading (a t) -> writing p' = writing (a t) ->
  (guarded p' = true -> v = true) -> p' <> Failed ->
  protocol_inv (Config hs w v (<[t := p']> a)).
Proof.
  intros [Hh He Hx Hv Ha] Hr Hw Hv' Ha'. simpl in *.
  split; simpl; intros t'; at_cases t t'; rewrite ?Hr, ?Hw; eauto.
Qed.

(** While the lock is held exclusively no activity is under a Guard. *)
Lemma exclusive_unguarded c t t' :
  protocol_inv c -> exclusive c = Some t -> guarded (at_ c t') = false.
Proof.
  intros [Hh He Hx Hv Ha] Hw.
  destruct (guarded (at_ c t')) eqn:Hg; [|done].
  apply guarded_reading, Hh in Hg. rewrite (Hx t Hw) in Hg. set_solver.
Qed.

Ltac inv_start Hinv t E :=
  let Hh := fresh "Hh" in let He := fresh "He" in let Hx := fresh "Hx" in
  let Hv := fresh "Hv" in let Ha := fresh "Ha" in
  destruct Hinv as [Hh He Hx Hv Ha]; simpl in *;
  pose proof (Hh t) as Hht; pose proof (He t) as Het;
  rewrite E in Hht, Het; simpl in Hht, Het;
  split; simpl; intros t'; at_cases t t'; simpl; eauto; try done; try tauto.

Ltac inv_unlock :=
  match goal with
  | Hh : forall t, t ∈ ?hs <-> _ |- _ ∈ ?hs ∖ {[_]} <-> reading _ = true =>
      rewrite <- Hh, elem_of_difference, elem_of_singleton;
      split; [by intros [? _]|intros; split; [done|congruence]]
  | |- _ ∈ _ ∖ {[_]} <-> false = true =>
      rewrite elem_of_difference, elem_of_singleton; split; [by intros [_ ?]|done]
  | Het : ?w = Some ?t <-> false = true |- ?w = Some ?t -> _ =>
      let Hw := fresh in intros Hw; by apply Het in Hw
  | Hx : forall t, ?w = Some t -> ?hs = ∅, Hht : ?t ∈ ?hs <-> true = true
    |- ?w = Some _ -> _ =>
      let Hw := fresh in
      intros Hw; apply Hx in Hw; rewrite Hw in Hht;
      by destruct (not_elem_of_empty (C:=gset activity) t); apply Hht
  end.

Lemma protocol_inv_step t c c' : protocol_inv c -> pstep t c c' -> protocol_inv c'.
Proof.
  intros Hinv Hs.
  destruct Hs as [v a E|hs w v a E|hs w v a E|hs w v a E|hs v a E|hs w a E
                 |hs w a E|hs w v a E|hs w v a E|hs w v a E|hs w v a E|hs w v a E].
  4,6,7,10,12: apply protocol_inv_move; rewrite ?E; done.
  - (* invalidate: the exclusive lock is taken *)
    inv_start Hinv t E.
    split; [congruence|]. intros Hw. by apply He in Hw.
  - (* invalidate: valid_ = false *)
    assert (Hw : w = Some t) by (apply (inv_exclusive _ Hinv); simpl; by rewrite E).
    pose proof (fun t' => exclusive_unguarded _ t t' Hinv Hw) as Hg. simpl in Hg.
    inv_start Hinv t E.
  - (* invalidate: the exclusive lock is released *)
    assert (Hw : w = Some t) by (apply (inv_exclusive _ Hinv); simpl; by rewrite E).
    inv_start Hinv t E.
    split; [done|]. intros Hw'. apply He in Hw'. congruence.
  - (* lock: sharedLock *)
    inv_start Hinv t E.
    + split; [done|]. intros _. by apply elem_of_union_l, elem_of_singleton.
    + rewrite <- Hh, elem_of_union, elem_of_singleton.
      split; [by intros [->|?]|by right].
  - (* lock: the assertion of the Guard constructor *)
    assert (v = true) as -> by (apply (inv_valid _ Hinv t); simpl; by rewrite E).
    apply protocol_inv_move; rewrite ?E; done.
  - (* lock: sharedUnlock *)
    inv_start Hinv t E; inv_unlock.
  - (* ~WeakPtrGuard: sharedUnlock *)
    inv_start Hinv t E; inv_unlock.
Qed.

Lemma interleaving_inv c c' : protocol_inv c -> interleaving c c' -> protocol_inv c'.
Proof.
  intros Hinv. induction 1 as [|c1 c2 c3 [t Hs] _ IH]; [done|].
  apply IH. by eapply protocol_inv_step.
Qed.

Lemma pstep_flag_stays_false t c c' : pstep t c c' -> flag c = false -> flag c' = false.
Proof. by destruct 1. Qed.

(** Under interleaving too a cleared liveness flag stays cleared. *)
Lemma interleaving_flag_stays_false c c' :
  interleaving c c' -> flag c = false -> flag c' = false.
Proof.
  induction 1 as [|c1 c2 c3 [t Hs] _ IH]; [done|].
  intros Hf. apply IH. by eapply pstep_flag_stays_false.
Qed.

(** However the calls of [invalidate()], [lock()] and the Guard
    destructors are interleaved, the assertion of the Guard constructor
    never fails, and while a Guard is alive its activity holds the lock
    in shared mode, nobody holds it exclusively and the liveness flag
    is true. *)
Theorem guard_protects_under_interleaving (c : config) (a : activity) :
  interleaving config_init c ->
  at_ c a <> Failed /\
  (at_ c a = Guard_held ->
   flag c = true /\ a ∈ holders c /\ exclusive c = None).
Proof.
  intros Hr. pose proof (interleaving_inv _ _ protocol_inv_init Hr) as Hinv.
  split; [apply (inv_assert _ Hinv)|]. intros Hg.
  assert (Ha : a ∈ holders c) by (apply (inv_holders _ Hinv); by rewrite Hg).
  split; [apply (inv_valid _ Hinv a); by rewrite Hg|]. split; [done|].
  destruct (exclusive c) as [t|] eqn:He; [|done].
  rewrite (inv_excludes _ Hinv t He) in Ha. by apply not_elem_of_empty in Ha.
Qed.

(** * Further properties of the operations *)

(** ** Closed forms of the destructors *)

Lemma guard_dtor_eq (g : WeakPtrGuard.t) (h : store) :
  WeakPtrGuard.dtor g h =
    match WeakPtrGuard.strong_ g with
    | None => Ok (tt, h)
    | Some l =>
        match upgradable h (Some l) with
        | None => Fault UndefinedBehaviour
        | Some (_, b) =>
            let m := WeakPtrSharedData.mutex_ (payload b) in
            match shared_timed_mutex.readers m with
            | O => Fault UndefinedBehaviour
            | S r =>
                Ok (tt, <[l := Block (pred (use_count b))
                                  (WeakPtrSharedData.mk
                                     (shared_timed_mutex.mk r (shared_timed_mutex.writer m))
                                     (WeakPtrSharedData.valid_ (payload b)))]> h)
            end
        end
    end.
Proof.
  unfold WeakPtrGuard.dtor, upgradable. monad_unfold.
  destruct (WeakPtrGuard.strong_ g) as [l|]; [|done].
  unfold call, release. destruct (h !! l) as [[c [[r wr] v]]|] eqn:Hl; [|done].
  simpl. destruct c as [|c]; [done|].
  unfold WeakPtrSharedData.sharedUnlock, WeakPtrSharedData.on_mutex,
    shared_timed_mutex.unlock_shared; simpl.
  destruct r as [|r]; [done|]. rewrite lookup_insert_eq. simpl.
  by rewrite insert_insert_eq.
Qed.

Lemma factory_dtor_eq (f : WeakPtrFactory.t) (h : store) :
  WeakPtrFactory.dtor f h =
    match upgradable h (WeakPtrFactory.strong_ f) with
    | None => Fault UndefinedBehaviour
    | Some (l, b) =>
        let m := WeakPtrSharedData.mutex_ (payload b) in
        if shared_timed_mutex.writer m then Fault WouldBlock
        else match shared_timed_mutex.readers m with
             | S _ => Fault WouldBlock
             | O => Ok (tt, <[l := Block (pred (use_count b))
                                     (WeakPtrSharedData.mk m false)]> h)
             end
    end.
Proof.
  unfold WeakPtrFactory.dtor, upgradable. monad_unfold.
  destruct (WeakPtrFactory.strong_ f) as [l|]; [|done].
  unfold call, release. destruct (h !! l) as [[c [[r wr] v]]|] eqn:Hl; [|done].
  simpl. destruct c as [|c]; [done|].
  unfold WeakPtrSharedData.invalidate, WeakPtrSharedData.on_mutex,
    WeakPtrSharedData.store_valid, shared_timed_mutex.lock,
    shared_timed_mutex.unlock. monad_unfold. simpl.
  destruct wr; [done|]. destruct r as [|r]; [|done]. simpl.
  rewrite lookup_insert_eq. simpl. by rewrite insert_insert_eq.
Qed.

(** What [lock()] does to a Validity State that is live and not locked
    exclusively. *)
Lemma lock_live (this : WeakPtrBase.t) (h : store) :
  live h (WeakPtrBase.weak_ this) = true ->
  write_locked h (WeakPtrBase.weak_ this) = false ->
  exists l b h1,
    WeakPtrBase.weak_ this = Some l /\ h !! l = Some b /\
    WeakPtrBase.lock this h = Ok (WeakPtrGuard.mk (Some l), h1) /\
    h1 = <[l := Block (S (use_count b))
                 (WeakPtrSharedData.mk
                    (shared_timed_mutex.mk
                       (S (shared_timed_mutex.readers (WeakPtrSharedData.mutex_ (payload b))))
                       false) true)]> h.
Proof.
  rewrite lock_eq. unfold live, write_locked, lock_closed.
  destruct (upgradable h _) as [[l b]|] eqn:Hu; [|done].
  apply upgradable_Some in Hu as (Hw & Hl & _). intros -> ->.
  exists l, b. eexists. by repeat split.
Qed.

(** ** The Guard gives back what lock() took *)

Lemma guard_dtor_after_lock
    (this : WeakPtrBase.t) (h h1 : store) (g : WeakPtrGuard.t) :
  WeakPtrBase.lock this h = Ok (g, h1) ->
  WeakPtrGuard.dtor g h1 = Ok (tt, h).
Proof.
  rewrite lock_eq, guard_dtor_eq. unfold lock_closed.
  destruct (upgradable h _) as [[l b]|] eqn:Hu.
  - apply upgradable_Some in Hu as (Hw & Hl & n & Hn).
    destruct b as [c [[r wr] v]]; simpl in *; subst c.
    destruct wr; [done|]. destruct v; intros [= <- <-]; simpl; [|done].
    unfold upgradable. rewrite lookup_insert_eq. simpl.
    by rewrite insert_insert_eq, insert_id.
  - by intros [= <- <-].
Qed.

(** X1. Destroying the Guard that [lock()] returned, in the store
    [lock()] left, gives back the store [lock()] started from: the read
    lock and the ownership are released exactly once, and an empty
    Guard releases nothing.  So [lock()] followed at once by the
    destruction of its Guard either waits for a writer or changes
    nothing. *)
Theorem lock_guard_dtor_round_trip (this : WeakPtrBase.t) (h : store) :
  (forall g h1, WeakPtrBase.lock this h = Ok (g, h1) ->
                WeakPtrGuard.dtor g h1 = Ok (tt, h)) /\
  (g ← WeakPtrBase.lock this; WeakPtrGuard.dtor g) h =
    if write_locked h (WeakPtrBase.weak_ this) then Fault WouldBlock else Ok (tt, h).
Proof.
  split; [intros g h1; apply guard_dtor_after_lock|].
  monad_unfold.
  destruct (WeakPtrBase.lock this h) as [[g h1]|e] eqn:Hl.
  - rewrite (guard_dtor_after_lock _ _ _ _ Hl).
    rewrite lock_eq in Hl. unfold lock_closed, write_locked in *.
    destruct (upgradable h _) as [[l b]|]; [|done].
    by destruct (shared_timed_mutex.writer _).
  - rewrite lock_eq in Hl. unfold lock_closed, write_locked in *.
    destruct (upgradable h _) as [[l b]|]; [|done]. simpl in Hl.
    destruct (shared_timed_mutex.writer _); [by injection Hl as <-|].
    by destruct (WeakPtrSharedData.valid_ _).
Qed.

Lemma lock_guard_dtor_round_trip_witness :
  WeakPtrGuard.dtor (WeakPtrGuard.mk (Some 1%positive))
    {[ 1%positive := Block 2 (WeakPtrSharedData.mk (shared_timed_mutex.mk 1 false) true) ]}
  = Ok (tt, demo_store).
Proof.
  apply (proj1 (lock_guard_dtor_round_trip demo_handle demo_store)).
  reflexivity.
Defined.

(** ** lock(), expired() and object() agree *)

(** X2. Unless it has to wait for a writer, [lock()] returns, and its
    Guard is empty exactly when [expired()] is true, before the call
    and after it; under a non-empty Guard [object()] is the stored
    pointer, under an empty one it is null. *)
Theorem lock_agrees_with_expired (this : WeakPtrBase.t) (h : store) :
  write_locked h (WeakPtrBase.weak_ this) = false ->
  exists g h1,
    WeakPtrBase.lock this h = Ok (g, h1) /\
    WeakPtrBase.expired this h = Ok (WeakPtrGuard.empty g, h) /\
    WeakPtrBase.expired this h1 = Ok (WeakPtrGuard.empty g, h1) /\
    WeakPtrBase.object this h1 =
      Ok (if WeakPtrGuard.empty g then nullptr else WeakPtrBase.ptr_ this, h1).
Proof.
  intros Hw. rewrite !expired_eq.
  destruct (live h (WeakPtrBase.weak_ this)) eqn:Hlive.
  - destruct (lock_live this h Hlive Hw) as (l & b & h1 & Hl & Hb & Hlock & ->).
    eexists _, _. split; [done|]. rewrite expired_eq, object_eq.
    assert (live (<[l:=Block (S (use_count b))
                     (WeakPtrSharedData.mk
                        (shared_timed_mutex.mk
                           (S (shared_timed_mutex.readers
                                 (WeakPtrSharedData.mutex_ (payload b)))) false) true)]> h)
                 (WeakPtrBase.weak_ this) = true) as ->; [|done].
    rewrite Hl. unfold live, upgradable. by rewrite lookup_insert_eq.
  - exists (WeakPtrGuard.mk None), h.
    rewrite lock_not_live, expired_eq, object_eq, Hlive by done. done.
Qed.

Lemma lock_agrees_with_expired_witness :
  exists g h1,
    WeakPtrBase.lock demo_handle demo_store = Ok (g, h1) /\
    WeakPtrBase.expired demo_handle demo_store = Ok (WeakPtrGuard.empty g, demo_store) /\
    WeakPtrBase.expired demo_handle h1 = Ok (WeakPtrGuard.empty g, h1) /\
    WeakPtrBase.object demo_handle h1 =
      Ok (if WeakPtrGuard.empty g then nullptr else WeakPtrBase.ptr_ demo_handle, h1).
Proof.
  apply (lock_agrees_with_expired demo_handle demo_store).
  reflexivity.
Defined.

(** ** The destructor of the factory *)

(** X3. The destructor of a factory dereferences its Validity State,
    which is undefined once that state is gone; it waits while anybody
    holds the lock, shared or exclusive; otherwise it returns, and then
    the liveness flag is false, the lock is as it was found, one
    ownership is given up and no other block of the store has changed. *)
Theorem factory_dtor_cases (f : WeakPtrFactory.t) (h : store) :
  match validity_state h (WeakPtrFactory.strong_ f) with
  | None => WeakPtrFactory.dtor f h = Fault UndefinedBehaviour
  | Some d =>
      if shared_timed_mutex.writer (WeakPtrSharedData.mutex_ d)
         || negb (shared_timed_mutex.readers (WeakPtrSharedData.mutex_ d) =? 0)
      then WeakPtrFactory.dtor f h = Fault WouldBlock
      else exists l b,
        WeakPtrFactory.strong_ f = Some l /\ h !! l = Some b /\
        WeakPtrFactory.dtor f h =
          Ok (tt, <[l := Block (pred (use_count b))
                           (WeakPtrSharedData.mk (WeakPtrSharedData.mutex_ d) false)]> h)
  end.
Proof.
  rewrite factory_dtor_eq. unfold validity_state.
  destruct (upgradable h _) as [[l b]|] eqn:Hu; [|done].
  apply upgradable_Some in Hu as (Hw & Hl & _). simpl.
  destruct (shared_timed_mutex.writer _); [done|]. simpl.
  destruct (shared_timed_mutex.readers _); simpl; [|done].
  by exists l, b.
Qed.

(** X4. While the Guard of a successful [lock()] on a handle of factory
    [f] is outstanding, the destructor of [f] waits; once that Guard is
    destroyed, and if no other reader was there before, the destructor
    returns and the handle is expired. *)
Theorem factory_dtor_waits_for_guard
    (f : WeakPtrFactory.t) (this : WeakPtrBase.t) (h h1 : store) (g : WeakPtrGuard.t) :
  WeakPtrBase.weak_ this = WeakPtrFactory.strong_ f ->
  WeakPtrBase.lock this h = Ok (g, h1) ->
  WeakPtrGuard.empty g = false ->
  WeakPtrFactory.dtor f h1 = Fault WouldBlock /\
  (readers_at h (WeakPtrFactory.strong_ f) = 0 ->
   exists h2,
     (WeakPtrGuard.dtor g;; WeakPtrFactory.dtor f) h1 = Ok (tt, h2) /\
     WeakPtrBase.expired this h2 = Ok (true, h2)).
Proof.
  intros Hlink Hlock Hne.
  pose proof (guard_dtor_after_lock _ _ _ _ Hlock) as Hrt.
  rewrite lock_eq in Hlock. unfold lock_closed in Hlock.
  destruct (upgradable h _) as [[l b]|] eqn:Hu; [|by injection Hlock as <- <-].
  pose proof Hu as Hu'. apply upgradable_Some in Hu' as (Hw & Hl & n & Hn).
  destruct b as [c [[r wr] v]]; simpl in *; subst c.
  destruct wr; [done|]. destruct v; injection Hlock as <- <-; [|done].
  rewrite Hw in Hu. rewrite factory_dtor_eq, <- Hlink, Hw. split.
  - unfold upgradable. by rewrite lookup_insert_eq.
  - unfold readers_at. rewrite Hu. simpl. intros ->.
    monad_unfold. rewrite Hrt, factory_dtor_eq, <- Hlink, Hw, Hu. simpl.
    eexists. split; [done|]. rewrite expired_eq, Hw. unfold live, upgradable.
    rewrite lookup_insert_eq. simpl. by destruct n.
Qed.

Lemma factory_dtor_waits_for_guard_witness :
  WeakPtrFactory.dtor demo_factory
    {[ 1%positive := Block 2 (WeakPtrSharedData.mk (shared_timed_mutex.mk 1 false) true) ]}
    = Fault WouldBlock /\
  (readers_at demo_store (WeakPtrFactory.strong_ demo_factory) = 0 ->
   exists h2,
     (WeakPtrGuard.dtor (WeakPtrGuard.mk (Some 1%positive));; WeakPtrFactory.dtor demo_factory)
       {[ 1%positive := Block 2 (WeakPtrSharedData.mk (shared_timed_mutex.mk 1 false) true) ]}
       = Ok (tt, h2) /\
     WeakPtrBase.expired demo_handle h2 = Ok (true, h2)).
Proof.
  apply (factory_dtor_waits_for_guard demo_factory demo_handle demo_store); reflexivity.
Defined.

(** ** Any number of readers *)

Lemma lock_live_after (this : WeakPtrBase.t) (h : store) :
  live h (WeakPtrBase.weak_ this) = true ->
  write_locked h (WeakPtrBase.weak_ this) = false ->
  exists g h1,
    WeakPtrBase.lock this h = Ok (g, h1) /\ WeakPtrGuard.empty g = false /\
    live h1 (WeakPtrBase.weak_ this) = true /\
    write_locked h1 (WeakPtrBase.weak_ this) = false /\
    readers_at h1 (WeakPtrBase.weak_ this) = S (readers_at h (WeakPtrBase.weak_ this)).
Proof.
  intros Hlive Hw.
  destruct (lock_live this h Hlive Hw) as (l & b & h1 & Hl & Hb & Hlock & ->).
  eexists _, _. split; [done|]. split; [done|].
  rewrite Hl. unfold live, write_locked, readers_at, upgradable in *.
  rewrite Hl, Hb in Hlive. rewrite lookup_insert_eq, Hb. simpl.
  by destruct (use_count b).
Qed.

Lemma dtor_all_app (gs1 gs2 : list WeakPtrGuard.t) (h : store) :
  dtor_all (gs1 ++ gs2) h = (dtor_all gs1;; dtor_all gs2) h.
Proof.
  revert h. induction gs1 as [|g gs1 IH]; intros h; simpl; [done|].
  monad_unfold. destruct (WeakPtrGuard.dtor g h) as [[[] h1]|]; [|done].
  apply IH.
Qed.

Lemma lock_all_round_trip (ws : list WeakPtrBase.t) (h h1 : store) (gs : list WeakPtrGuard.t) :
  lock_all ws h = Ok (gs, h1) -> dtor_all (rev gs) h1 = Ok (tt, h).
Proof.
  revert h h1 gs. induction ws as [|w ws IH]; intros h h1 gs; simpl.
  - by intros [= <- <-].
  - monad_unfold.
    destruct (WeakPtrBase.lock w h) as [[g h2]|] eqn:Hl; [|done].
    destruct (lock_all ws h2) as [[gs' h3]|] eqn:Hls; [|done].
    intros [= <- <-]. simpl. rewrite dtor_all_app. monad_unfold.
    rewrite (IH _ _ _ Hls). simpl. monad_unfold.
    by rewrite (guard_dtor_after_lock _ _ _ _ Hl).
Qed.

(** X5. The read lock is shared: on a Validity State that is live and
    not locked exclusively, [lock()] on any number of handles linked to
    it succeeds one after the other, every Guard is non-empty, and the
    mutex has one more reader per Guard; destroying the Guards in the
    reverse order gives back the store as it was. *)
Theorem shared_locks_all_succeed (link : WeakRef) (ws : list WeakPtrBase.t) (h : store) :
  Forall (fun w => WeakPtrBase.weak_ w = link) ws ->
  live h link = true ->
  write_locked h link = false ->
  exists gs h1,
    lock_all ws h = Ok (gs, h1) /\
    length gs = length ws /\
    Forall (fun g => WeakPtrGuard.empty g = false) gs /\
    readers_at h1 link = readers_at h link + length ws /\
    dtor_all (rev gs) h1 = Ok (tt, h).
Proof.
  intros Hws Hlive Hw.
  enough (exists gs h1,
    lock_all ws h = Ok (gs, h1) /\ length gs = length ws /\
    Forall (fun g => WeakPtrGuard.empty g = false) gs /\
    readers_at h1 link = readers_at h link + length ws) as (gs & h1 & H1 & H2 & H3 & H4).
  { exists gs, h1. repeat split; try done. by eapply lock_all_round_trip. }
  revert h Hlive Hw. induction Hws as [|w ws Hlink _ IH]; intros h Hlive Hw; simpl.
  - exists [], h. repeat split; [constructor|lia].
  - subst link.
    destruct (lock_live_after w h Hlive Hw) as (g & h1 & Hl & Hg & Hlive1 & Hw1 & Hr1).
    destruct (IH h1 Hlive1 Hw1) as (gs & h2 & Hls & Hlen & Hall & Hr2).
    exists (g :: gs), h2. monad_unfold. rewrite Hl, Hls. simpl.
    repeat split; [by rewrite Hlen|by constructor|lia].
Qed.

Lemma shared_locks_all_succeed_witness :
  exists gs h1,
    lock_all [demo_handle; WeakPtr.ctor_copy demo_handle; demo_handle] demo_store = Ok (gs, h1) /\
    length gs = 3 /\
    Forall (fun g => WeakPtrGuard.empty g = false) gs /\
    readers_at h1 (Some 1%positive) = readers_at demo_store (Some 1%positive) + 3 /\
    dtor_all (rev gs) h1 = Ok (tt, demo_store).
Proof.
  apply (shared_locks_all_succeed (Some 1%positive)
           [demo_handle; WeakPtr.ctor_copy demo_handle; demo_handle] demo_store).
  - repeat constructor.
  - reflexivity.
  - reflexivity.
Defined.

(** ** A new factory *)

Lemma validity_state_insert_ne (h : store) (l : loc) (b : control_block) (k : WeakRef) :
  k <> Some l -> validity_state (<[l := b]> h) k = validity_state h k.
Proof.
  intros Hk. unfold validity_state, upgradable. destruct k as [l'|]; [|done].
  rewrite lookup_insert_ne; [done|congruence].
Qed.

Lemma expired_by_validity_state (w : WeakPtrBase.t) (h h' : store) :
  validity_state h' (WeakPtrBase.weak_ w) = validity_state h (WeakPtrBase.weak_ w) ->
  exists e, WeakPtrBase.expired w h = Ok (e, h) /\ WeakPtrBase.expired w h' = Ok (e, h').
Proof.
  intros Hv. rewrite !expired_eq. eexists. split; [done|].
  unfold validity_state, live in *.
  destruct (upgradable h' _) as [[? ?]|], (upgradable h _) as [[? ?]|]; congruence.
Qed.

(** X6. The constructor of a factory always returns.  Its Validity
    State sits at an address the store did not use, every block that
    was there is as before, so every Validity State reached by an
    existing link is as before; and when the wrapped pointer is not
    null, a handle made by the new factory is not expired and
    dereferences to the wrapped object. *)
Theorem factory_ctor_fresh (obj : pointer) (h : store) :
  exists l,
    let f := WeakPtrFactory.mk (Some l) obj in
    let h' := <[l := Block 1 WeakPtrSharedData.init]> h in
    h !! l = None /\
    WeakPtrFactory.ctor obj h = Ok (f, h') /\
    (forall k, (forall l', k = Some l' -> is_Some (h !! l')) ->
               validity_state h' k = validity_state h k) /\
    (obj <> nullptr ->
     exists w, WeakPtrFactory.makeWeakPtr f h' = Ok (w, h') /\
               WeakPtrBase.expired w h' = Ok (false, h') /\
               WeakPtr.operator_arrow w h' = Ok (obj, h')).
Proof.
  exists (fresh (dom h)). simpl.
  assert (Hfresh : h !! fresh (dom h) = None).
  { apply not_elem_of_dom, is_fresh. }
  split; [done|]. split; [done|]. split.
  - intros k Hk. apply validity_state_insert_ne. intros ->.
    destruct (Hk _ eq_refl) as [b Hb]. congruence.
  - intros Hobj. assert (is_null obj = false) as Hn by (by apply N.eqb_neq).
    exists (WeakPtrBase.mk (Some (fresh (dom h))) obj).
    unfold WeakPtrFactory.makeWeakPtr, WeakPtr.ctor, WeakPtrBase.ctor,
      WeakPtr.operator_arrow. monad_unfold. simpl.
    rewrite Hn, expired_eq, object_eq. simpl.
    unfold live, upgradable. rewrite lookup_insert_eq. simpl. by rewrite Hn.
Qed.

Lemma factory_ctor_fresh_witness :
  exists w, WeakPtrFactory.makeWeakPtr demo_factory demo_store = Ok (w, demo_store) /\
            WeakPtrBase.expired w demo_store = Ok (false, demo_store) /\
            WeakPtr.operator_arrow w demo_store = Ok (100%N, demo_store).
Proof.
  destruct (factory_ctor_fresh 100%N ∅) as (l & _ & Hc & _ & Hw).
  injection Hc as <-. apply Hw. discriminate.
Defined.

(** ** A factory over the null pointer *)

(** X7. A factory that wraps the null pointer cannot make handles:
    [makeWeakPtr] and [makeWeakMethod] fail the assertion of the
    [WeakPtrBase] constructor.  Over any other pointer both return, the
    handle carries the link and the pointer of the factory, and the
    store is not touched. *)
Theorem makeWeakPtr_null_asserts {U P R : Type}
    (f : WeakPtrFactory.t) (method : pointer -> P -> M (store * U) R) (h : store) :
  (WeakPtrFactory.obj_ f = nullptr ->
   WeakPtrFactory.makeWeakPtr f h = Fault AssertionFailed /\
   WeakPtrFactory.makeWeakMethod f method h = Fault AssertionFailed) /\
  (WeakPtrFactory.obj_ f <> nullptr ->
   WeakPtrFactory.makeWeakPtr f h =
     Ok (WeakPtrBase.mk (WeakPtrFactory.strong_ f) (WeakPtrFactory.obj_ f), h) /\
   exists callable, WeakPtrFactory.makeWeakMethod f method h = Ok (callable, h)).
Proof.
  unfold WeakPtrFactory.makeWeakMethod, WeakPtrFactory.makeWeakPtr, WeakPtr.ctor,
    WeakPtrBase.ctor, is_null. monad_unfold. simpl.
  destruct (N.eqb_spec (WeakPtrFactory.obj_ f) nullptr) as [E|E]; simpl; split; try done.
  intros _. split; [done|]. by eexists.
Qed.

Lemma makeWeakPtr_null_asserts_witness :
  WeakPtrFactory.makeWeakPtr (WeakPtrFactory.mk (Some 1%positive) nullptr) demo_store
    = Fault AssertionFailed /\
  WeakPtrFactory.makeWeakMethod (WeakPtrFactory.mk (Some 1%positive) nullptr)
    demo_increment demo_store = Fault AssertionFailed.
Proof.
  apply (proj1 (makeWeakPtr_null_asserts
                  (WeakPtrFactory.mk (Some 1%positive) nullptr) demo_increment demo_store)).
  reflexivity.
Defined.

(** ** Dereference *)

(** X8. On a handle derived from a factory, [operator->] returns the
    stored pointer, without touching the store, exactly when the handle
    is not expired, and fails its assertion exactly when it is. *)
Theorem operator_arrow_iff_not_expired (f : WeakPtrFactory.t) (w : WeakPtr.t) (h : store) :
  derived f w ->
  (WeakPtrBase.expired w h = Ok (false, h) <->
   WeakPtr.operator_arrow w h = Ok (WeakPtrBase.ptr_ w, h)) /\
  (WeakPtrBase.expired w h = Ok (true, h) <->
   WeakPtr.operator_arrow w h = Fault AssertionFailed).
Proof.
  intros Hd. pose proof (derived_ptr f w Hd) as Hp.
  assert (is_null (WeakPtrBase.ptr_ w) = false) as Hn by (by apply N.eqb_neq).
  unfold WeakPtr.operator_arrow. monad_unfold. rewrite expired_eq, object_eq.
  destruct (live h (WeakPtrBase.weak_ w)); simpl; rewrite ?Hn; simpl; split; split; done.
Qed.

Lemma operator_arrow_iff_not_expired_witness :
  (WeakPtrBase.expired demo_handle demo_store = Ok (false, demo_store) <->
   WeakPtr.operator_arrow demo_handle demo_store = Ok (WeakPtrBase.ptr_ demo_handle, demo_store)) /\
  (WeakPtrBase.expired demo_handle demo_store = Ok (true, demo_store) <->
   WeakPtr.operator_arrow demo_handle demo_store = Fault AssertionFailed).
Proof.
  apply (operator_arrow_iff_not_expired demo_factory).
  apply (derived_make _ demo_store demo_handle demo_store). reflexivity.
Defined.

(** ** Factories do not interfere *)

Lemma lock_changes_own_block (this : WeakPtrBase.t) (h h' : store) (g : WeakPtrGuard.t) :
  WeakPtrBase.lock this h = Ok (g, h') ->
  h' = h \/ exists l b, WeakPtrBase.weak_ this = Some l /\ h' = <[l := b]> h.
Proof.
  rewrite lock_eq. unfold lock_closed.
  destruct (upgradable h _) as [[l b]|] eqn:Hu; [|intros [= _ <-]; by left].
  apply upgradable_Some in Hu as (Hw & _).
  destruct (shared_timed_mutex.writer _); [done|].
  destruct (WeakPtrSharedData.valid_ _); intros [= _ <-]; [|by left].
  right. eauto.
Qed.

Lemma guard_dtor_changes_own_block (g : WeakPtrGuard.t) (h h' : store) :
  WeakPtrGuard.dtor g h = Ok (tt, h') ->
  h' = h \/ exists l b, WeakPtrGuard.strong_ g = Some l /\ h' = <[l := b]> h.
Proof.
  rewrite guard_dtor_eq. destruct (WeakPtrGuard.strong_ g) as [l|]; [|intros [= <-]; by left].
  destruct (upgradable h (Some l)) as [[l' b]|]; [|done]. simpl.
  destruct (shared_timed_mutex.readers (WeakPtrSharedData.mutex_ (payload b)));
    [done|]. intros [= <-]. right. eauto.
Qed.

Lemma factory_dtor_changes_own_block (f : WeakPtrFactory.t) (h h' : store) :
  WeakPtrFactory.dtor f h = Ok (tt, h') ->
  exists l b, WeakPtrFactory.strong_ f = Some l /\ h' = <[l := b]> h.
Proof.
  rewrite factory_dtor_eq. destruct (upgradable h _) as [[l b]|] eqn:Hu; [|done].
  apply upgradable_Some in Hu as (Hw & _). simpl.
  destruct (shared_timed_mutex.writer (WeakPtrSharedData.mutex_ (payload b))); [done|].
  destruct (shared_timed_mutex.readers (WeakPtrSharedData.mutex_ (payload b)));
    [|done]. intros [= <-]. eauto.
Qed.

(** X9. [lock()], the destructor of a Guard and the destructor of a
    factory change at most the Validity State of their own link: a
    handle [w] linked elsewhere reaches the same Validity State after
    the call as before, and [expired()] answers the same on it.  In
    particular, destroying one factory does not expire the handles of
    another. *)
Theorem other_links_unaffected (w : WeakPtrBase.t) (h h' : store) :
  (exists this g,
     WeakPtrBase.lock this h = Ok (g, h') /\
     WeakPtrBase.weak_ this <> WeakPtrBase.weak_ w) \/
  (exists g,
     WeakPtrGuard.dtor g h = Ok (tt, h') /\
     WeakPtrGuard.strong_ g <> WeakPtrBase.weak_ w) \/
  (exists f,
     WeakPtrFactory.dtor f h = Ok (tt, h') /\
     WeakPtrFactory.strong_ f <> WeakPtrBase.weak_ w) ->
  validity_state h' (WeakPtrBase.weak_ w) = validity_state h (WeakPtrBase.weak_ w) /\
  exists e, WeakPtrBase.expired w h = Ok (e, h) /\ WeakPtrBase.expired w h' = Ok (e, h').
Proof.
  intros Hop.
  assert (validity_state h' (WeakPtrBase.weak_ w) = validity_state h (WeakPtrBase.weak_ w))
    as Hv; [|split; [done|by apply expired_by_validity_state]].
  destruct Hop as [(this & g & Hop & Hne)|[(g & Hop & Hne)|(f & Hop & Hne)]].
  - apply lock_changes_own_block in Hop as [->|(l & b & Hl & ->)]; [done|].
    apply validity_state_insert_ne. congruence.
  - apply guard_dtor_changes_own_block in Hop as [->|(l & b & Hl & ->)]; [done|].
    apply validity_state_insert_ne. congruence.
  - apply factory_dtor_changes_own_block in Hop as (l & b & Hl & ->).
    apply validity_state_insert_ne. congruence.
Qed.

Lemma other_links_unaffected_witness :
  validity_state (<[ 1%positive := Block 0 demo_invalid ]>
                    (<[ 2%positive := Block 1 WeakPtrSharedData.init ]> demo_store))
                 (Some 2%positive)
  = validity_state (<[ 2%positive := Block 1 WeakPtrSharedData.init ]> demo_store)
                   (Some 2%positive) /\
  exists e,
    WeakPtrBase.expired (WeakPtrBase.mk (Some 2%positive) 200%N)
      (<[ 2%positive := Block 1 WeakPtrSharedData.init ]> demo_store)
      = Ok (e, <[ 2%positive := Block 1 WeakPtrSharedData.init ]> demo_store) /\
    WeakPtrBase.expired (WeakPtrBase.mk (Some 2%positive) 200%N)
      (<[ 1%positive := Block 0 demo_invalid ]>
         (<[ 2%positive := Block 1 WeakPtrSharedData.init ]> demo_store))
      = Ok (e, <[ 1%positive := Block 0 demo_invalid ]>
                 (<[ 2%positive := Block 1 WeakPtrSharedData.init ]> demo_store)).
Proof.
  apply (other_links_unaffected (WeakPtrBase.mk (Some 2%positive) 200%N)).
  right. right. exists demo_factory. split; [reflexivity|discriminate].
Defined.

(** ** Moving a Guard *)

(** X10. Moving the Guard that [lock()] returned leaves the source
    empty, so that its destructor does nothing, and gives the hold to
    the new Guard, whose destructor gives back the store [lock()]
    started from: the lock is released once, not twice. *)
Theorem guard_move_releases_once
    (this : WeakPtrBase.t) (h h1 : store) (g : WeakPtrGuard.t) :
  WeakPtrBase.lock this h = Ok (g, h1) ->
  let moved := fst (WeakPtrGuard.ctor_move g) in
  let source := snd (WeakPtrGuard.ctor_move g) in
  WeakPtrGuard.empty source = true /\
  WeakPtrGuard.dtor source h1 = Ok (tt, h1) /\
  WeakPtrGuard.dtor moved h1 = Ok (tt, h) /\
  (WeakPtrGuard.dtor source;; WeakPtrGuard.dtor moved) h1 = Ok (tt, h).
Proof.
  intros Hlock. simpl.
  pose proof (guard_dtor_after_lock _ _ _ _ Hlock) as Hrt.
  destruct g as [s]. simpl. by repeat split.
Qed.

Lemma guard_move_releases_once_witness :
  let g := WeakPtrGuard.mk (Some 1%positive) in
  let h1 : store :=
    {[ 1%positive := Block 2 (WeakPtrSharedData.mk (shared_timed_mutex.mk 1 false) true) ]} in
  WeakPtrGuard.empty (snd (WeakPtrGuard.ctor_move g)) = true /\
  WeakPtrGuard.dtor (snd (WeakPtrGuard.ctor_move g)) h1 = Ok (tt, h1) /\
  WeakPtrGuard.dtor (fst (WeakPtrGuard.ctor_move g)) h1 = Ok (tt, demo_store) /\
  (WeakPtrGuard.dtor (snd (WeakPtrGuard.ctor_move g));;
   WeakPtrGuard.dtor (fst (WeakPtrGuard.ctor_move g))) h1 = Ok (tt, demo_store).
Proof.
  apply (guard_move_releases_once demo_handle demo_store). reflexivity.
Defined.

(** ** A bound method while the object lives *)

(** X11. Called while the Validity State of the factory is live and not
    locked exclusively, the callable of [makeWeakMethod] runs the
    member function in a store where the destructor of the factory
    would wait, so the object is not deleted during the call; and when
    the member function leaves the store alone, the call leaves the
    store exactly as it found it: no lock and no ownership stay
    behind. *)
Theorem weak_method_call_holds_guard {U P R : Type}
    (f : WeakPtrFactory.t) (method : pointer -> P -> M (store * U) R)
    (h0 h0' : store) (callable : P -> M (store * U) unit)
    (params : P) (h : store) (u : U) :
  WeakPtrFactory.makeWeakMethod f method h0 = Ok (callable, h0') ->
  live h (WeakPtrFactory.strong_ f) = true ->
  write_locked h (WeakPtrFactory.strong_ f) = false ->
  exists guard h1,
    WeakPtrFactory.dtor f h1 = Fault WouldBlock /\
    callable params (h, u) =
      (method (WeakPtrFactory.obj_ f) params ≫= fun _ => on_fst (WeakPtrGuard.dtor guard))
        (h1, u) /\
    (forall r u',
       method (WeakPtrFactory.obj_ f) params (h1, u) = Ok (r, (h1, u')) ->
       callable params (h, u) = Ok (tt, (h, u'))).
Proof.
  intros Hm Hlive Hw.
  unfold WeakPtrFactory.makeWeakMethod in Hm. monad_unfold.
  destruct (WeakPtrFactory.makeWeakPtr f h0) as [[w h']|] eqn:Ew; [|done].
  apply makeWeakPtr_inv in Ew as (-> & -> & Hobj).
  injection Hm as <- <-.
  assert (Hnull : is_null (WeakPtrFactory.obj_ f) = false) by (by apply N.eqb_neq).
  set (weakPtr := WeakPtrBase.mk (WeakPtrFactory.strong_ f) (WeakPtrFactory.obj_ f)).
  destruct (lock_live_after weakPtr h Hlive Hw) as (g & h1 & Hl & Hg & Hlive1 & Hw1 & Hr1).
  pose proof (guard_dtor_after_lock _ _ _ _ Hl) as Hrt.
  simpl in Hlive1, Hw1, Hr1.
  assert (Hcall : forall st,
    (guard ← on_fst (WeakPtrBase.lock weakPtr);
     obj ← on_fst (WeakPtrBase.object weakPtr);
     (if is_null obj then mret tt else method obj params;; mret tt);;
     on_fst (WeakPtrGuard.dtor guard)) (h, u) = st <->
    (method (WeakPtrFactory.obj_ f) params ≫= fun _ => on_fst (WeakPtrGuard.dtor g))
      (h1, u) = st).
  { intros st. monad_unfold. unfold on_fst. simpl. rewrite Hl. simpl.
    rewrite object_eq. simpl. rewrite Hlive1, Hnull.
    by destruct (method _ params (h1, u)) as [[r [h2 u2]]|]. }
  exists g, h1. split; [|split].
  - rewrite factory_dtor_eq. unfold readers_at, live, write_locked in *.
    destruct (upgradable h1 _) as [[l b]|]; [|done]. simpl.
    rewrite Hw1, Hr1. done.
  - by apply Hcall.
  - intros r u' Hmeth. apply Hcall. monad_unfold. rewrite Hmeth.
    unfold on_fst. simpl. by rewrite Hrt.
Qed.

Lemma weak_method_call_holds_guard_witness :
  exists guard h1,
    WeakPtrFactory.dtor demo_factory h1 = Fault WouldBlock /\
    demo_callable 3 (demo_store, 5) =
      (demo_increment (WeakPtrFactory.obj_ demo_factory) 3
         ≫= fun _ => on_fst (WeakPtrGuard.dtor guard)) (h1, 5) /\
    (forall r u',
       demo_increment (WeakPtrFactory.obj_ demo_factory) 3 (h1, 5) = Ok (r, (h1, u')) ->
       demo_callable 3 (demo_store, 5) = Ok (tt, (demo_store, u'))).
Proof.
  apply (weak_method_call_holds_guard demo_factory demo_increment demo_store demo_store);
    reflexivity.
Defined.

(** ** Mutual exclusion under interleaving *)

(** X13. Under any interleaving, while an activity is inside
    [invalidate()], between taking the lock and letting it go, no
    activity holds the lock in shared mode (none is inside the locked
    part of [lock()], none holds a Guard), and no other activity is
    inside [invalidate()]. *)
Theorem invalidate_excludes_guards (c : config) (t : activity) :
  interleaving config_init c ->
  writing (at_ c t) = true ->
  holders c = ∅ /\
  (forall a, reading (at_ c a) = false) /\
  (forall t', writing (at_ c t') = true -> t' = t).
Proof.
  intros Hr Hw. pose proof (interleaving_inv _ _ protocol_inv_init Hr) as Hinv.
  pose proof (proj2 (inv_exclusive _ Hinv t) Hw) as He.
  pose proof (inv_excludes _ Hinv t He) as Hh.
  split; [done|]. split.
  - intros a. destruct (reading (at_ c a)) eqn:Ha; [|done].
    apply (inv_holders _ Hinv) in Ha. rewrite Hh in Ha.
    by apply not_elem_of_empty in Ha.
  - intros t' Hw'. apply (inv_exclusive _ Hinv) in Hw'. congruence.
Qed.

Lemma invalidate_excludes_guards_witness :
  holders (Config ∅ (Some 0) true (<[0 := Inv_locked]> (fun _ => Idle))) = ∅ /\
  (forall a, reading (at_ (Config ∅ (Some 0) true (<[0 := Inv_locked]> (fun _ => Idle))) a)
             = false) /\
  (forall t', writing (at_ (Config ∅ (Some 0) true (<[0 := Inv_locked]> (fun _ => Idle))) t')
              = true -> t' = 0).
Proof.
  apply (invalidate_excludes_guards _ 0).
  - apply rtc_once. exists 0. by apply (p_inv_lock 0 true (fun _ => Idle)).
  - reflexivity.
Defined.

(** X14. Under any interleaving, once the liveness flag is false no
    Guard is alive and none will ever be: every later [lock()] takes
    the branch that unlocks and returns an empty Guard. *)
Theorem invalidated_never_guarded (c c' : config) (a : activity) :
  interleaving config_init c ->
  flag c = false ->
  interleaving c c' ->
  flag c' = false /\ at_ c' a <> Guard_held /\ at_ c' a <> Lock_valid.
Proof.
  intros Hr Hf Hr'.
  pose proof (interleaving_flag_stays_false _ _ Hr' Hf) as Hf'.
  assert (interleaving config_init c') as Hr'' by (by eapply rtc_trans).
  pose proof (interleaving_inv _ _ protocol_inv_init Hr'') as Hinv.
  split; [done|].
  split; intros Ha; pose proof (inv_valid _ Hinv a) as Hv;
    rewrite Ha in Hv; specialize (Hv eq_refl); congruence.
Qed.

Lemma demo_config_guarded_reached : interleaving config_init demo_config_guarded.
Proof.
  eapply rtc_l; [exists 0; by apply p_lock_upgrade|].
  eapply rtc_l; [exists 0; by apply p_lock_shared|].
  eapply rtc_l; [exists 0; by apply p_lock_valid|].
  apply rtc_once. exists 0.
  by apply (p_lock_assert 0 ({[0]} ∪ ∅) None true
              (<[0 := Lock_valid]> (<[0 := Lock_shared]>
                 (<[0 := Lock_upgraded]> (fun _ => Idle))))).
Qed.

Lemma demo_config_invalidated_reached : interleaving config_init demo_config_invalidated.
Proof.
  eapply rtc_l; [exists 0; by apply p_inv_lock|].
  apply rtc_once. exists 0. by apply p_inv_store.
Qed.

Lemma guard_protects_under_interleaving_witness :
  at_ demo_config_guarded 0 <> Failed /\
  (at_ demo_config_guarded 0 = Guard_held ->
   flag demo_config_guarded = true /\ 0 ∈ holders demo_config_guarded /\
   exclusive demo_config_guarded = None).
Proof.
  apply (guard_protects_under_interleaving demo_config_guarded 0).
  exact demo_config_guarded_reached.
Defined.

Lemma invalidated_never_guarded_witness :
  flag demo_config_invalidated = false /\
  at_ demo_config_invalidated 1 <> Guard_held /\
  at_ demo_config_invalidated 1 <> Lock_valid.
Proof.
  apply (invalidated_never_guarded demo_config_invalidated demo_config_invalidated 1).
  - exact demo_config_invalidated_reached.
  - reflexivity.
  - apply rtc_refl.
Defined.

(** ** No call leaves the mutex locked exclusively *)

Lemma unlocked_insert (h : store) (l : loc) (b : control_block) :
  unlocked_exclusive h ->
  shared_timed_mutex.writer (WeakPtrSharedData.mutex_ (payload b)) = false ->
  unlocked_exclusive (<[l := b]> h).
Proof.
  intros Hu Hb l' b'. destruct (decide (l = l')) as [<-|Hne].
  - rewrite lookup_insert_eq. by intros [= <-].
  - rewrite lookup_insert_ne by done. apply Hu.
Qed.

Lemma keeps_unlocked_ret {A} (a : A) : keeps_unlocked (mret a).
Proof. by intros h a' h' [= _ <-]. Qed.

Lemma keeps_unlocked_bind {A B} (m : M store A) (k : A -> M store B) :
  keeps_unlocked m -> (forall a, keeps_unlocked (k a)) -> keeps_unlocked (m ≫= k).
Proof.
  intros Hm Hk h b h'. monad_unfold.
  destruct (m h) as [[a h1]|] eqn:E; [|done].
  intros Hb Hu. eapply Hk; [done|]. by eapply Hm.
Qed.

Lemma keeps_unlocked_assert (c : bool) : keeps_unlocked (assert c).
Proof. destruct c; [apply (keeps_unlocked_ret tt)|by intros ???]. Qed.

Lemma keeps_unlocked_make_shared : keeps_unlocked make_shared.
Proof. intros h s h' [= _ <-] Hu. by apply unlocked_insert. Qed.

Lemma keeps_unlocked_weak_lock w : keeps_unlocked (weak_lock w).
Proof.
  intros h s h'. unfold weak_lock.
  destruct (upgradable h w) as [[l b]|] eqn:Hu; [|by intros [= _ <-]].
  apply upgradable_Some in Hu as (_ & Hl & _). intros [= _ <-] Hq.
  apply unlocked_insert; [done|]. simpl. by apply (Hq l).
Qed.

Lemma keeps_unlocked_release s : keeps_unlocked (release s).
Proof.
  intros h [] h'. unfold release. destruct s as [l|]; [|by intros [= <-]].
  destruct (h !! l) as [b|] eqn:Hl; [|done].
  destruct (use_count b); [done|]. intros [= <-] Hq.
  apply unlocked_insert; [done|]. simpl. by apply (Hq l).
Qed.

Lemma keeps_unlocked_call {A} s (f : M WeakPtrSharedData.t A) :
  (forall d a d', f d = Ok (a, d') ->
     shared_timed_mutex.writer (WeakPtrSharedData.mutex_ d) = false ->
     shared_timed_mutex.writer (WeakPtrSharedData.mutex_ d') = false) ->
  keeps_unlocked (call s f).
Proof.
  intros Hf h a h'. unfold call. destruct s as [l|]; [|done].
  destruct (h !! l) as [b|] eqn:Hl; [|done].
  destruct (use_count b); [done|].
  destruct (f (payload b)) as [[a' d']|] eqn:Ef; [|done]. intros [= _ <-] Hq.
  apply unlocked_insert; [done|]. simpl. eapply Hf; [done|]. by apply (Hq l).
Qed.

Lemma keeps_unlocked_members s :
  keeps_unlocked (call s WeakPtrSharedData.sharedLock) /\
  keeps_unlocked (call s WeakPtrSharedData.sharedUnlock) /\
  keeps_unlocked (call s WeakPtrSharedData.invalidate) /\
  keeps_unlocked (call s WeakPtrSharedData.valid).
Proof.
  repeat split; apply keeps_unlocked_call; intros [[r w] v] a d';
    unfold WeakPtrSharedData.sharedLock, WeakPtrSharedData.sharedUnlock,
      WeakPtrSharedData.invalidate, WeakPtrSharedData.valid,
      WeakPtrSharedData.on_mutex, WeakPtrSharedData.store_valid,
      shared_timed_mutex.lock_shared, shared_timed_mutex.unlock_shared,
      shared_timed_mutex.lock, shared_timed_mutex.unlock;
    monad_unfold; simpl.
  - destruct w; [done|]. by intros [= _ <-].
  - destruct r; [done|]. by intros [= _ <-].
  - destruct w; [done|]. destruct r; [|done]. by intros [= _ <-].
  - by intros [= _ <-].
Qed.

Lemma keeps_unlocked_sharedLock s : keeps_unlocked (call s WeakPtrSharedData.sharedLock).
Proof. apply keeps_unlocked_members. Qed.
Lemma keeps_unlocked_sharedUnlock s : keeps_unlocked (call s WeakPtrSharedData.sharedUnlock).
Proof. apply keeps_unlocked_members. Qed.
Lemma keeps_unlocked_invalidate s : keeps_unlocked (call s WeakPtrSharedData.invalidate).
Proof. apply keeps_unlocked_members. Qed.
Lemma keeps_unlocked_valid s : keeps_unlocked (call s WeakPtrSharedData.valid).
Proof. apply keeps_unlocked_members. Qed.

Create HintDb keeps_unlocked.
#[export] Hint Resolve keeps_unlocked_make_shared keeps_unlocked_weak_lock
  keeps_unlocked_release keeps_unlocked_sharedLock keeps_unlocked_sharedUnlock
  keeps_unlocked_invalidate keeps_unlocked_valid keeps_unlocked_assert : keeps_unlocked.

Ltac keeps_unlocked :=
  repeat first
    [ apply keeps_unlocked_bind; [|intros ?]
    | apply keeps_unlocked_ret
    | progress eauto with keeps_unlocked
    | match goal with
      | |- keeps_unlocked (match ?x with _ => _ end) => destruct x
      | |- keeps_unlocked (if ?x then _ else _) => destruct x
      end ].

Lemma keeps_unlocked_guard_ctor s : keeps_unlocked (WeakPtrGuard.ctor s).
Proof. unfold WeakPtrGuard.ctor; simpl. keeps_unlocked. Qed.

Lemma keeps_unlocked_guard_dtor g : keeps_unlocked (WeakPtrGuard.dtor g).
Proof. unfold WeakPtrGuard.dtor. keeps_unlocked. Qed.

#[export] Hint Resolve keeps_unlocked_guard_ctor keeps_unlocked_guard_dtor : keeps_unlocked.

Lemma keeps_unlocked_lock w : keeps_unlocked (WeakPtrBase.lock w).
Proof. unfold WeakPtrBase.lock. keeps_unlocked. Qed.

Lemma keeps_unlocked_expired w : keeps_unlocked (WeakPtrBase.expired w).
Proof. unfold WeakPtrBase.expired. keeps_unlocked. Qed.

Lemma keeps_unlocked_object w : keeps_unlocked (WeakPtrBase.object w).
Proof. unfold WeakPtrBase.object. keeps_unlocked. Qed.

#[export] Hint Resolve keeps_unlocked_lock keeps_unlocked_expired
  keeps_unlocked_object : keeps_unlocked.

Lemma step_keeps_unlocked h h' : step h h' -> unlocked_exclusive h -> unlocked_exclusive h'.
Proof.
  destruct 1 as [obj f H|f H|f w H|w g H|w e H|w e H|w p H|w p H|g H
                |s H|s H|s H|s v H|s H|w s H|s H];
    revert H; match goal with |- ?m h = Ok (?a, h') -> _ =>
      enough (keeps_unlocked m) as Hk by (intros H; by eapply Hk) end.
  - unfold WeakPtrFactory.ctor. keeps_unlocked.
  - unfold WeakPtrFactory.dtor. keeps_unlocked.
  - unfold WeakPtrFactory.makeWeakPtr, WeakPtr.ctor, WeakPtrBase.ctor; simpl.
    keeps_unlocked.
  - keeps_unlocked.
  - keeps_unlocked.
  - unfold WeakPtrBase.operator_bool. keeps_unlocked.
  - keeps_unlocked.
  - unfold WeakPtr.operator_arrow. keeps_unlocked.
  - keeps_unlocked.
  - keeps_unlocked.
  - keeps_unlocked.
  - keeps_unlocked.
  - keeps_unlocked.
  - keeps_unlocked.
  - keeps_unlocked.
  - keeps_unlocked.
Qed.

(** X15. No operation of the library returns with a mutex held
    exclusively: in every store reached from the empty store by any
    operations, every mutex is free of a writer, so [lock()] on any
    handle returns without waiting. *)
Theorem lock_never_waits_between_calls (h : store) (w : WeakPtrBase.t) :
  reachable ∅ h ->
  unlocked_exclusive h /\
  exists g h1, WeakPtrBase.lock w h = Ok (g, h1).
Proof.
  intros Hr.
  assert (unlocked_exclusive h) as Hq.
  { assert (unlocked_exclusive ∅) as H0 by (intros l b; by rewrite lookup_empty).
    revert H0. induction Hr as [|h1 h2 h3 Hs _ IH]; [done|].
    intros H1. apply IH. by eapply step_keeps_unlocked. }
  split; [done|]. rewrite lock_eq. unfold lock_closed.
  destruct (upgradable h _) as [[l b]|] eqn:Hu; [|by eexists _, _].
  apply upgradable_Some in Hu as (_ & Hl & _). rewrite (Hq l b Hl).
  destruct (WeakPtrSharedData.valid_ _); by eexists _, _.
Qed.

Lemma lock_never_waits_between_calls_witness :
  unlocked_exclusive demo_store_later /\
  exists g h1, WeakPtrBase.lock demo_handle demo_store_later = Ok (g, h1).
Proof.
  apply (lock_never_waits_between_calls demo_store_later demo_handle).
  eapply rtc_l; [by apply (step_factory_ctor _ _ 100%N demo_factory)|].
  eapply rtc_l; [by apply (step_factory_dtor _ _ demo_factory)|].
  apply rtc_once.
  by apply (step_factory_ctor _ _ 200%N (WeakPtrFactory.mk (Some 2%positive) 200%N)).
Defined.
